(** * Optimizer: the browser image resizer of [src/es6/optimizer.js]

    A shallow embedding of the [Resizer] class (constructor,
    [scaleAndCompress], [processFile]) and the properties of its
    dimension arithmetic, its halving loop and its choice between the
    recompressed and the original data URL.

    Numbers.  JavaScript numbers are IEEE doubles.  Every value the class
    computes is an integer, a quotient of two integers, an infinity or NaN,
    so numbers are embedded as exact rationals extended with [PInf], [NInf]
    and [NaN].  Doubles are exact on integers up to 2^53 and their
    division is correctly rounded, so the embedding computes what the code
    computes as long as the products [img.width * maxSize] and
    [img.height * maxSize] stay below 2^52; past 2^53 the product is
    itself rounded by the code and a rounded side can differ by a pixel.
    [Math.log2] is taken exact, which engines are on the sides of DOM
    images (below 2^32).  Zero is unsigned here: a negative zero only
    appears in JavaScript when a negative configuration meets an empty
    image, outside the data model of the class.

    The browser.  Calls to the browser are recorded in order.  Of what the
    browser does, the embedding keeps what decides the control flow of the
    class: [drawImage] returns at once on an argument that is not finite
    and otherwise throws [InvalidStateError] when its source is a canvas
    with a side of zero pixels (HTML Standard, canvas 2D context); an
    exception in the executor of a promise rejects the promise. *)

From Stdlib Require Import ZArith QArith Qround Qreduction Qcanon Qpower.
From Stdlib Require Import Bool List String Lia.
Import ListNotations.

Local Open Scope Z_scope.

(** ** JavaScript numbers *)

Module Num.

Inductive num : Type :=
| Fin (q : Q)
| PInf
| NInf
| NaN.

(** Finite results are kept in lowest terms, so that equal numbers are
    equal terms. *)
Definition fin (q : Q) : num := Fin (Qred q).

Definition of_Z (z : Z) : num := Fin (inject_Z z).

(** The values [Math.floor] can return. *)
Inductive intnum : Type :=
| IFin (k : Z)
| IPInf
| INInf
| INaN.

Definition is_zero (q : Q) : bool := Qnum q =? 0.
Definition is_neg (q : Q) : bool := Qnum q <? 0.

(** [x / y] *)
Definition div (x y : num) : num :=
  match x, y with
  | NaN, _ | _, NaN => NaN
  | Fin a, Fin b =>
      if is_zero b then
        if is_zero a then NaN else if is_neg a then NInf else PInf
      else fin (a / b)
  | Fin _, (PInf | NInf) => of_Z 0
  | PInf, Fin b => if is_neg b then NInf else PInf
  | NInf, Fin b => if is_neg b then PInf else NInf
  | (PInf | NInf), (PInf | NInf) => NaN
  end.

(** [x * y] *)
Definition mul (x y : num) : num :=
  match x, y with
  | NaN, _ | _, NaN => NaN
  | Fin a, Fin b => fin (a * b)
  | Fin a, PInf | PInf, Fin a =>
      if is_zero a then NaN else if is_neg a then NInf else PInf
  | Fin a, NInf | NInf, Fin a =>
      if is_zero a then NaN else if is_neg a then PInf else NInf
  | PInf, PInf | NInf, NInf => PInf
  | PInf, NInf | NInf, PInf => NInf
  end.

(** [Math.round]: the nearest integer, halves towards +Infinity. *)
Definition Math_round (x : num) : num :=
  match x with
  | Fin q => of_Z (Qfloor (q + (1 # 2)))
  | _ => x
  end.

(** [Math.floor(Math.log2(x))].  The logarithm of a rational is
    irrational in general and the source only ever uses its floor, so the
    two calls are embedded together: for [x >= 1] the floor of the
    logarithm of [x] is the binary logarithm of the integer part of [x],
    for [0 < x < 1] it is minus the rounded-up binary logarithm of the
    rounded-up inverse.  [Math.log2] is [-Infinity] at 0, [NaN] below 0
    and [Infinity] at [Infinity]; [Math.floor] keeps all three. *)
Definition floor_log2 (x : num) : intnum :=
  match x with
  | Fin q =>
      if is_zero q then INInf
      else if is_neg q then INaN
      else if Qle_bool 1 q then IFin (Z.log2 (Qfloor q))
      else IFin (- Z.log2_up (Qceiling (/ q)))
  | PInf => IPInf
  | NInf => INaN
  | NaN => INaN
  end.

(** [Math.pow(2, n)] for the exponents [Math.floor] can return. *)
Definition Math_pow2 (n : intnum) : num :=
  match n with
  | IFin k =>
      if 0 <=? k then of_Z (2 ^ k)
      else Fin (1 # Pos.pow 2 (Z.to_pos (- k)))
  | IPInf => PInf
  | INInf => of_Z 0
  | INaN => NaN
  end.

(** [i < n] for the loop counter [i], which only takes integer values. *)
Definition lt_int (i : Z) (n : intnum) : bool :=
  match n with
  | IFin k => i <? k
  | IPInf => true
  | INInf | INaN => false
  end.

(** A number that is neither an infinity nor [NaN]. *)
Definition finite (x : num) : bool :=
  match x with
  | Fin _ => true
  | _ => false
  end.

(** The side, in pixels, that a canvas gets from the number assigned to
    its [width] or [height] is 0: the number is converted to an unsigned
    integer, which gives 0 for [NaN] and the infinities and drops the
    fraction of the others.  (The conversion also wraps at 2^32; a side
    that large is outside the range of the DOM and is not taken to
    wrap here.) *)
Definition zero_side (x : num) : bool :=
  match x with
  | Fin q => Z.quot (Qnum q) (Zpos (Qden q)) =? 0
  | _ => true
  end.

End Num.

Import Num.

(** ** The objects of the program *)

(** [this]: the two fields the constructor stores. *)
Record Resizer : Type := mkResizer {
  maxSize : Z;
  compression : Z
}.

Definition constructor (maxSize compression : Z) : Resizer :=
  {| maxSize := maxSize; compression := compression |}.

(** A decoded [Image]: the DOM gives its sides as unsigned integers. *)
Record Image : Type := mkImage {
  width : Z;
  height : Z
}.

(** A [File] of the File API: its declared type and its content. *)
Record File : Type := mkFile {
  type : string;
  body : string
}.

(** A canvas: the sides the code assigned and the draw calls that
    returned since.  A canvas drawn onto itself is recorded as [FromSelf]: its
    content at that moment is the list of the draws before. *)
Inductive Canvas : Type :=
| mkCanvas (c_width c_height : num) (painted : list Draw)
with Draw : Type :=
| drawn (source : Source) (args : list num)
with Source : Type :=
| FromImage (img : Image)
| FromSelf
| FromCanvas (c : Canvas).

Definition c_width (c : Canvas) : num :=
  match c with mkCanvas w _ _ => w end.
Definition c_height (c : Canvas) : num :=
  match c with mkCanvas _ h _ => h end.
Definition painted (c : Canvas) : list Draw :=
  match c with mkCanvas _ _ p => p end.

(** [document.createElement('canvas')]: 300 by 150 and blank. *)
Definition new_canvas : Canvas := mkCanvas (of_Z 300) (of_Z 150) [].

(** [c.width = v] and [c.height = v]: resizing clears the surface. *)
Definition set_width (c : Canvas) (v : num) : Canvas :=
  mkCanvas v (c_height c) [].
Definition set_height (c : Canvas) (v : num) : Canvas :=
  mkCanvas (c_width c) v [].

Definition paint (c : Canvas) (s : Source) (args : list num) : Canvas :=
  mkCanvas (c_width c) (c_height c) (painted c ++ [drawn s args]).

(** A promise is pending or settled; settling a settled promise does
    nothing. *)
Inductive Promise : Type :=
| Pending
| Fulfilled (value : string)
| Rejected (reason : string).

Definition settle (p outcome : Promise) : Promise :=
  match p with
  | Pending => outcome
  | _ => p
  end.

(** [p.then(f)] for a settled or pending [p]. *)
Definition then_ (p : Promise) (f : string -> string) : Promise :=
  match p with
  | Fulfilled v => Fulfilled (f v)
  | _ => p
  end.

(** What the program asks of the browser, in order. *)
Inductive HostCall : Type :=
| CreateCanvas
| DrawImage (target : Canvas) (source : Source) (args : list num)
| ToDataURL (c : Canvas) (mime : string) (quality : num)
| NewFileReader
| ReadAsDataURL (file : File)
| NewImage
| SetSrc (url : string).

(** The browser: reading a file as a data URL and decoding a data URL
    into an image ([None] when the load event never fires), and encoding a
    canvas. *)
Class Host : Type := {
  readAsDataURL : File -> option string;
  decode : string -> option Image;
  toDataURL : Canvas -> string -> num -> string
}.

(** The state a method runs in: the object and the calls made so far. *)
Record World : Type := mkWorld {
  this : Resizer;
  calls : list HostCall
}.

(** ** A state monad with divergence

    [None] is a run that has not finished within its fuel. *)

Definition M (A : Type) : Type := World -> option (A * World).

Definition ret {A} (a : A) : M A := fun s => Some (a, s).

Definition bind {A B} (m : M A) (f : A -> M B) : M B :=
  fun s => match m s with
           | Some (a, s') => f a s'
           | None => None
           end.

Definition hang {A} : M A := fun _ => None.

Definition get_this : M Resizer := fun s => Some (this s, s).

Definition call (c : HostCall) : M unit :=
  fun s => Some (tt, {| this := this s; calls := calls s ++ [c] |}).

Notation "x <- m ;; k" := (bind m (fun x => k))
  (at level 61, m at next level, right associativity).
Notation "m ;;; k" := (bind m (fun _ => k))
  (at level 61, right associativity).

(** A call that returns or throws; what follows a call that throws is
    skipped. *)
Inductive outcome (A : Type) : Type :=
| returned (a : A)
| thrown (reason : string).

Arguments returned {A} a.
Arguments thrown {A} reason.

Definition bind_returned {A B} (m : M (outcome A)) (f : A -> M (outcome B))
    : M (outcome B) :=
  o <- m ;;
  match o with
  | returned a => f a
  | thrown reason => ret (thrown reason)
  end.

Notation "x <~ m ;; k" := (bind_returned m (fun x => k))
  (at level 61, m at next level, right associativity).

(** ** The program *)

(** [t.match('image.*')] is not anchored and [.*] also matches nothing:
    it succeeds exactly when ["image"] occurs somewhere in [t]. *)
Fixpoint occurs (p s : string) : bool :=
  String.prefix p s ||
  match s with
  | EmptyString => false
  | String _ s' => occurs p s'
  end.

Definition match_image (t : string) : bool := occurs "image" t.

(** The inner callback of [processFile]: the smaller of the two URLs.
    [length] counts UTF-16 units in JavaScript and characters here; the
    two agree on data URLs, which are ASCII. *)
Definition smaller (generatedURL result : string) : string :=
  if (Z.of_nat (String.length generatedURL) <? Z.of_nat (String.length result))
  then generatedURL
  else result.

(** [img.width > img.height]: the test that picks the side to clamp. *)
Definition width_is_longer (img : Image) : bool :=
  width img >? height img.

(** "compute the new dimensions": [(cWidth, cHeight)]. *)
Definition newDimensions (r : Resizer) (img : Image) : num * num :=
  if width_is_longer img then
    (of_Z (maxSize r),
     Math_round (div (of_Z (height img * maxSize r)) (of_Z (width img))))
  else
    (Math_round (div (of_Z (width img * maxSize r)) (of_Z (height img))),
     of_Z (maxSize r)).

(** [n = Math.floor(Math.log2(img.width / cWidth))]. *)
Definition halvings (img : Image) (cWidth : num) : intnum :=
  floor_log2 (div (of_Z (width img)) cWidth).

(** [img.width > this.maxSize || img.height > this.maxSize]. *)
Definition exceeds (r : Resizer) (img : Image) : bool :=
  (width img >? maxSize r) || (height img >? maxSize r).

Definition createElement_canvas : M Canvas :=
  call CreateCanvas ;;; ret new_canvas.

(** The canvas a draw reads from, if its source is a canvas. *)
Definition source_canvas (target : Canvas) (s : Source) : option Canvas :=
  match s with
  | FromImage _ => None
  | FromSelf => Some target
  | FromCanvas c => Some c
  end.

Definition has_zero_side (c : Canvas) : bool :=
  zero_side (c_width c) || zero_side (c_height c).

Definition unusable (target : Canvas) (s : Source) : bool :=
  match source_canvas target s with
  | Some c => has_zero_side c
  | None => false
  end.

(** [context.drawImage(source, ...args)]: the call is made; it returns when
    an argument is not finite, throws when the source is a canvas with a
    side of zero pixels, and otherwise draws. *)
Definition drawImage (c : Canvas) (s : Source) (args : list num)
    : M (outcome Canvas) :=
  call (DrawImage c s args) ;;;
  if forallb finite args && unusable c s
  then ret (thrown "InvalidStateError")
  else ret (returned (paint c s args)).

(** "run the scaledown routine n times":
    [for (let i = 0; i < n; ++i) context.drawImage(canvas, 0, 0, w / 2, h / 2)].
    [w] and [h] are not updated by the loop. *)
Fixpoint scaledown (fuel : nat) (i : Z) (n : intnum) (w h : num)
    (canvas : Canvas) : M (outcome Canvas) :=
  if lt_int i n then
    match fuel with
    | O => hang
    | S fuel' =>
        canvas' <~ drawImage canvas FromSelf
                     [of_Z 0; of_Z 0; div w (of_Z 2); div h (of_Z 2)] ;;
        scaledown fuel' (i + 1) n w h canvas'
    end
  else ret (returned canvas).

(** [this.compression / 100] *)
Definition quality (r : Resizer) : num := div (of_Z (compression r)) (of_Z 100).

Section Methods.

Context {host : Host}.

(** [final.toDataURL('image/jpeg', this.compression / 100)] *)
Definition encode (r : Resizer) (final : Canvas) : M string :=
  call (ToDataURL final "image/jpeg" (quality r)) ;;;
  ret (toDataURL final "image/jpeg" (quality r)).

(** The executor of the promise of [scaleAndCompress]: it returns the
    data URL it resolves the promise with, or throws. *)
Definition scaleAndCompress_executor (fuel : nat) (img : Image)
    : M (outcome string) :=
  final <- createElement_canvas ;;
  r <- get_this ;;
  if exceeds r img then
    let '(cWidth, cHeight) := newDimensions r img in
    let n := halvings img cWidth in
    let n_pow := Math_pow2 n in
    let w := mul cWidth n_pow in
    let h := mul cHeight n_pow in
    canvas <- createElement_canvas ;;
    let canvas := set_width canvas w in
    let canvas := set_height canvas h in
    canvas <~ drawImage canvas (FromImage img) [of_Z 0; of_Z 0; w; h] ;;
    canvas <~ scaledown fuel 0 n w h canvas ;;
    let final := set_width final cWidth in
    let final := set_height final cHeight in
    final <~ drawImage final (FromCanvas canvas)
               [of_Z 0; of_Z 0; cWidth; cHeight;
                of_Z 0; of_Z 0; cWidth; cHeight] ;;
    url <- encode r final ;;
    ret (returned url)
  else
    let final := set_width final (of_Z (width img)) in
    let final := set_height final (of_Z (height img)) in
    final <~ drawImage final (FromImage img)
               [of_Z 0; of_Z 0; of_Z (width img); of_Z (height img)] ;;
    url <- encode r final ;;
    ret (returned url).

(** [scaleAndCompress(img)]: the executor runs to its end inside the call,
    so the promise it returns is already settled: fulfilled with the data
    URL, or rejected with the exception the executor threw. *)
Definition scaleAndCompress (fuel : nat) (img : Image) : M Promise :=
  o <- scaleAndCompress_executor fuel img ;;
  ret (match o with
       | returned url => settle Pending (Fulfilled url)
       | thrown reason => settle Pending (Rejected reason)
       end).

(** [processFile(file)] as the call returns: the type was tested, the
    reader was started, and the promise is pending or already rejected.
    There is no [return] after [reject]. *)
Definition processFile_call (file : File) : M Promise :=
  let p := Pending in
  let p := if negb (match_image (type file))
           then settle p (Rejected "The file is not an image.")
           else p in
  call NewFileReader ;;;
  call (ReadAsDataURL file) ;;;
  ret p.

(** The load listener of the image. *)
Definition image_load (fuel : nat) (p : Promise) (result : string)
    (img : Image) : M Promise :=
  q <- scaleAndCompress fuel img ;;
  ret (settle p (then_ q (fun generatedURL => smaller generatedURL result))).

(** The load listener of the reader. *)
Definition reader_load (fuel : nat) (p : Promise) (result : string)
    : M Promise :=
  call NewImage ;;;
  call (SetSrc result) ;;;
  match decode result with
  | None => ret p
  | Some img => image_load fuel p result img
  end.

(** [processFile(file)] once the listeners have run: they run one after
    the other when the browser has read the file and decoded the image; a
    load event that never fires leaves the promise as the call returned
    it. *)
Definition processFile (fuel : nat) (file : File) : M Promise :=
  p <- processFile_call file ;;
  match readAsDataURL file with
  | None => ret p
  | Some result => reader_load fuel p result
  end.

(** A client of the object: any sequence of calls of its two methods. *)
Inductive Call : Type :=
| CallScaleAndCompress (img : Image)
| CallProcessFile (file : File).

Definition invoke (fuel : nat) (c : Call) : M Promise :=
  match c with
  | CallScaleAndCompress img => scaleAndCompress fuel img
  | CallProcessFile file => processFile fuel file
  end.

Fixpoint invoke_all (fuel : nat) (cs : list Call) : M (list Promise) :=
  match cs with
  | [] => ret []
  | c :: cs' =>
      p <- invoke fuel c ;;
      ps <- invoke_all fuel cs' ;;
      ret (p :: ps)
  end.

End Methods.

(** Running a method on a fresh object. *)
Definition fresh (r : Resizer) : World := {| this := r; calls := [] |}.

(** The canvas handed to the encoder, when that was the last call made. *)
Definition encoded (s : World) : option Canvas :=
  match List.last (calls s) CreateCanvas with
  | ToDataURL c _ _ => Some c
  | _ => None
  end.

(** A browser for the examples: a file is read as its content, a few
    data URLs decode (to a wide, a small or a thin image), and the encoder
    writes one character per draw the canvas received. *)
Definition toy_decode (url : string) : option Image :=
  if String.eqb url "data:image/png;base64,wide" then
    Some {| width := 2000; height := 1000 |}
  else if String.eqb url "data:image/png;base64,eq" then
    Some {| width := 300; height := 200 |}
  else if String.eqb url "data:image/png;base64,s" then
    Some {| width := 300; height := 200 |}
  else if String.eqb url "data:image/png;base64,small" then
    Some {| width := 300; height := 200 |}
  else if String.eqb url "data:text/plain;base64,small" then
    Some {| width := 300; height := 200 |}
  else if String.eqb url "data:image/png;base64,thin" then
    Some {| width := 1; height := 1000 |}
  else None.

Definition toy_url (c : Canvas) : string :=
  String.append "data:image/jpeg;base64,"
    (String.concat "" (List.map (fun _ => "j"%string) (painted c))).

Definition toy_host : Host := {|
  readAsDataURL := fun f => Some (body f);
  decode := toy_decode;
  toDataURL := fun c _ _ => toy_url c
|}.

(** The world in which the image load listener of [processFile] runs. *)
Definition after_load (file : File) (result : string) (s : World) : World :=
  {| this := this s;
     calls := (((calls s ++ [NewFileReader]) ++ [ReadAsDataURL file]) ++
               [NewImage]) ++ [SetSrc result] |}.

(** The promise of [processFile] once the type of the file was tested. *)
Definition after_type_test (file : File) : Promise :=
  if negb (match_image (type file))
  then Rejected "The file is not an image."
  else Pending.

(** [s'] is [s] after some more calls, with the same object. *)
Definition extends (s s' : World) : Prop :=
  this s' = this s /\ exists l, calls s' = calls s ++ l.

(** A computation that leaves [this] alone and only adds calls. *)
Definition steady {A} (m : M A) : Prop :=
  forall s a s', m s = Some (a, s') -> extends s s'.

(** The products the code forms before it divides are exact doubles, and
    small enough for the rounded quotient to round as the exact one. *)
Definition exact_products (r : Resizer) (img : Image) : Prop :=
  width img * maxSize r < 2 ^ 52 /\ height img * maxSize r < 2 ^ 52.

(** Exactly one of two propositions. *)
Definition exactly_one (P Q : Prop) : Prop := (P /\ ~ Q) \/ (~ P /\ Q).

(** The objects of the examples. *)
Definition r100 : Resizer := constructor 100 75.
Definition thin : Image := {| width := 1; height := 1000 |}.
Definition flat : Image := {| width := 1000; height := 1 |}.
Definition square : Image := {| width := 1000; height := 1000 |}.
Definition r500 : Resizer := constructor 500 75.
Definition wide : Image := {| width := 2000; height := 1000 |}.
Definition small : Image := {| width := 300; height := 200 |}.
Definition small_file : File :=
  {| type := "image/png"; body := "data:image/png;base64,small" |}.
Definition tie_file : File :=
  {| type := "image/png"; body := "data:image/png;base64,eq" |}.
Definition text_file : File :=
  {| type := "text/plain"; body := "data:text/plain;base64,small" |}.

(** The draw of one round of the scaledown loop. *)
Definition halve_draw (w h : num) : Draw :=
  drawn FromSelf [of_Z 0; of_Z 0; div w (of_Z 2); div h (of_Z 2)].

(** The working canvas once the image was drawn onto it and the loop made
    [k] rounds, and the final canvas once the working canvas was copied. *)
Definition working_canvas (img : Image) (w h : num) (k : nat) : Canvas :=
  mkCanvas w h
    (drawn (FromImage img) [of_Z 0; of_Z 0; w; h] :: repeat (halve_draw w h) k).

Definition final_canvas (cWidth cHeight : num) (working : Canvas) : Canvas :=
  mkCanvas cWidth cHeight
    [drawn (FromCanvas working)
       [of_Z 0; of_Z 0; cWidth; cHeight; of_Z 0; of_Z 0; cWidth; cHeight]].

(** The rectangle, from the top left corner, that the picture covers on a
    canvas, read off the draws the canvas received.  [drawImage] with a
    destination rectangle scales its whole source into that rectangle: an
    image drawn at the origin with sides [dw] and [dh] covers [dw] by [dh];
    a canvas of sides [W] and [H] drawn onto itself at the origin with
    sides [dw] and [dh] takes its point [(a, b)] to
    [(a * dw / W, b * dh / H)]. *)
Definition at_origin (x y : num) : bool :=
  match x, y with
  | Fin a, Fin b => is_zero a && is_zero b
  | _, _ => false
  end.

Definition draw_extent (W H : num) (e : option (num * num)) (d : Draw)
    : option (num * num) :=
  match d with
  | drawn (FromImage _) [x; y; dw; dh] =>
      if at_origin x y then Some (dw, dh) else None
  | drawn FromSelf [x; y; dw; dh] =>
      match e with
      | Some (a, b) =>
          if at_origin x y then Some (div (mul a dw) W, div (mul b dh) H)
          else None
      | None => None
      end
  | _ => None
  end.

Definition picture (c : Canvas) : option (num * num) :=
  fold_left (draw_extent (c_width c) (c_height c)) (painted c) None.

(** ** Arithmetic of the embedded numbers *)

Lemma Qfloor_half_up (a : Z) (b : positive) :
  Qfloor (Qred (inject_Z a / inject_Z (Zpos b)) + (1 # 2)) =
  (2 * a + Zpos b) / (2 * Zpos b).
Proof.
  assert (E : Qred (inject_Z a / inject_Z (Zpos b)) + (1 # 2)
              == (2 * a + Zpos b) # (2 * b)).
  { rewrite Qred_correct, <- Qmake_Qdiv.
    unfold Qeq, Qplus; cbn [Qnum Qden].
    rewrite !Pos2Z.inj_mul. lia. }
  rewrite E. reflexivity.
Qed.

(** [Math.round(a / b)] on integers is the rounded integer quotient. *)
Lemma round_quotient (a b : Z) :
  0 < b ->
  Math_round (div (of_Z a) (of_Z b)) = of_Z ((2 * a + b) / (2 * b)).
Proof.
  intros Hb. destruct b as [|b|b]; try lia.
  unfold div, of_Z, is_zero, fin, Math_round; simpl Qnum.
  change (Z.pos b =? 0) with false; cbv iota.
  now rewrite Qfloor_half_up.
Qed.

(** [round_div a b]: the spec's [round(a / b)] on integers. *)
Lemma round_div_bounds (a b : Z) :
  0 < b ->
  2 * a - b < 2 * b * ((2 * a + b) / (2 * b)) <= 2 * a + b.
Proof.
  intros Hb.
  pose proof (Z.mul_div_le (2 * a + b) (2 * b) ltac:(lia)).
  pose proof (Z.mul_succ_div_gt (2 * a + b) (2 * b) ltac:(lia)).
  lia.
Qed.

Lemma round_div_clamped (s l m : Z) :
  0 < l -> 0 <= m -> s <= l ->
  (2 * (s * m) + l) / (2 * l) <= m.
Proof.
  intros Hl Hm Hs.
  apply Z.lt_succ_r, Z.div_lt_upper_bound; nia.
Qed.

Lemma round_div_nonneg (a b : Z) :
  0 < b -> 0 <= a -> 0 <= (2 * a + b) / (2 * b).
Proof. intros. apply Z.div_pos; lia. Qed.

Lemma round_div_square (l m : Z) :
  0 < l -> (2 * (l * m) + l) / (2 * l) = m.
Proof.
  intros Hl. symmetry. apply Z.div_unique with (r := l); lia.
Qed.

Lemma of_Z_inj (a b : Z) : of_Z a = of_Z b -> a = b.
Proof. unfold of_Z, inject_Z. congruence. Qed.

(** The two branches of [newDimensions] on an image with positive sides. *)
Lemma newDimensions_wide (r : Resizer) (img : Image) :
  0 < width img -> height img < width img ->
  newDimensions r img =
  (of_Z (maxSize r),
   of_Z ((2 * (height img * maxSize r) + width img) / (2 * width img))).
Proof.
  intros Hw Hlt. unfold newDimensions, width_is_longer.
  replace (width img >? height img) with true by (symmetry; lia).
  now rewrite round_quotient.
Qed.

Lemma newDimensions_tall (r : Resizer) (img : Image) :
  0 < height img -> width img <= height img ->
  newDimensions r img =
  (of_Z ((2 * (width img * maxSize r) + height img) / (2 * height img)),
   of_Z (maxSize r)).
Proof.
  intros Hh Hle. unfold newDimensions, width_is_longer.
  replace (width img >? height img) with false by (symmetry; lia).
  now rewrite round_quotient.
Qed.

Lemma Qnum_pos (q : Q) : (0 < q)%Q -> 0 < Qnum q.
Proof. destruct q as [n d]. unfold Qlt; simpl. lia. Qed.

Lemma two_power (k : Z) : 0 <= k -> (inject_Z (2 ^ k) == 2 ^ k)%Q.
Proof. intros Hk. now rewrite Zpower_Qpower. Qed.

Lemma Qinv_le_antitone (a b : Q) : (0 < a)%Q -> (a <= b)%Q -> (/ b <= / a)%Q.
Proof.
  intros Ha Hab. apply Qnot_lt_le. intros H.
  apply Qinv_lt_contravar in H; [|eapply Qlt_le_trans; eassumption|assumption].
  exact (Qlt_not_le _ _ H Hab).
Qed.

(** [floor_log2] is the floor of the binary logarithm: on a positive
    rational [q] it is the integer [k] with [2^k <= q < 2^(k+1)]. *)
Lemma floor_log2_spec (q : Q) :
  (0 < q)%Q ->
  exists k, floor_log2 (Fin q) = IFin k /\ (2 ^ k <= q)%Q /\ (q < 2 ^ (k + 1))%Q.
Proof.
  intros Hq. pose proof (Qnum_pos q Hq) as Hn. unfold floor_log2, is_zero, is_neg.
  replace (Qnum q =? 0) with false by (symmetry; lia).
  replace (Qnum q <? 0) with false by (symmetry; lia).
  destruct (Qle_bool 1 q) eqn:Hle.
  - apply Qle_bool_iff in Hle.
    assert (Hf : 1 <= Qfloor q) by (apply (Qfloor_resp_le 1 q Hle)).
    destruct (Z.log2_spec (Qfloor q) ltac:(lia)) as [Hlo Hhi].
    pose proof (Z.log2_nonneg (Qfloor q)) as Hk.
    exists (Z.log2 (Qfloor q)). split; [reflexivity|]. split.
    + rewrite <- two_power by assumption.
      apply Qle_trans with (inject_Z (Qfloor q)); [|apply Qfloor_le].
      now rewrite <- Zle_Qle.
    + rewrite <- two_power by lia.
      apply Qlt_le_trans with (inject_Z (Qfloor q + 1)); [apply Qlt_floor|].
      rewrite <- Zle_Qle. lia.
  - assert (Hlt : (q < 1)%Q).
    { apply Qnot_le_lt. intros H. apply Qle_bool_iff in H. congruence. }
    assert (Hx : (1 < / q)%Q).
    { exact (proj1 (Qinv_lt_contravar q 1 Hq eq_refl) Hlt). }
    set (c := Qceiling (/ q)).
    assert (Hc : 1 < c).
    { rewrite Zlt_Qlt. eapply Qlt_le_trans; [exact Hx|apply Qle_ceiling]. }
    destruct (Z.log2_up_spec c Hc) as [Hlo Hhi].
    pose proof (Z.log2_up_pos c Hc) as Hm.
    exists (- Z.log2_up c). split; [reflexivity|].
    assert (Hxpos : (0 < / q)%Q) by (now apply Qinv_lt_0_compat).
    split.
    + rewrite Qpower_opp, <- (Qinv_involutive q) at 1.
      rewrite <- two_power by lia.
      apply Qinv_le_antitone; [assumption|].
      apply Qle_trans with (inject_Z c); [apply Qle_ceiling|].
      now rewrite <- Zle_Qle.
    + replace (- Z.log2_up c + 1) with (- Z.pred (Z.log2_up c)) by lia.
      rewrite Qpower_opp, <- two_power by lia.
      rewrite <- (Qinv_involutive q) at 1.
      assert (H1 : (0 < inject_Z (2 ^ Z.pred (Z.log2_up c)))%Q).
      { change 0%Q with (inject_Z 0). rewrite <- Zlt_Qlt.
        apply Z.pow_pos_nonneg; lia. }
      assert (H2 : (inject_Z (2 ^ Z.pred (Z.log2_up c)) < / q)%Q).
      { apply Qle_lt_trans with (inject_Z (c - 1)); [|apply Qceiling_lt].
        rewrite <- Zle_Qle. lia. }
      exact (proj1 (Qinv_lt_contravar _ _ H1 Hxpos) H2).
Qed.

(** [Math_pow2] is the power of two. *)
Lemma Math_pow2_spec (k : Z) :
  exists q, Math_pow2 (IFin k) = Fin q /\ (q == 2 ^ k)%Q.
Proof.
  unfold Math_pow2. destruct (Z.leb_spec 0 k) as [Hk|Hk].
  - eexists; split; [reflexivity|]. now apply two_power.
  - eexists; split; [reflexivity|].
    destruct k as [|p|p]; try lia. clear Hk. cbn [Z.opp Z.to_pos].
    change (2 ^ Z.neg p)%Q with (/ Qpower_positive 2 p)%Q.
    rewrite <- Qinv_power_positive.
    change (/ 2)%Q with (1 # 2)%Q.
    induction p as [|p IH] using Pos.peano_ind.
    + reflexivity.
    + rewrite Pos.pow_succ_r, <- Pos.add_1_l, Qpower_plus_positive, <- IH.
      reflexivity.
Qed.

(** The halving count of a positive width over a positive target width. *)
Lemma halvings_positive (img : Image) (c : Z) :
  0 < c -> c <= width img ->
  halvings img (of_Z c) = IFin (Z.log2 (width img / c)).
Proof.
  intros Hc Hw. unfold halvings, div, of_Z, fin, floor_log2.
  destruct c as [|c|c]; try lia.
  unfold is_zero at 1; cbn [Qnum inject_Z]. change (Z.pos c =? 0) with false; cbv iota.
  assert (E : Qred (inject_Z (width img) / inject_Z (Z.pos c)) == width img # c)
    by (now rewrite Qred_correct, <- Qmake_Qdiv).
  assert (Hpos : 0 < Qnum (Qred (inject_Z (width img) / inject_Z (Z.pos c)))).
  { apply Qnum_pos. rewrite E. unfold Qlt; simpl. lia. }
  unfold is_zero, is_neg.
  replace (_ =? 0) with false by (symmetry; lia).
  replace (_ <? 0) with false by (symmetry; lia).
  assert (Hge : Qle_bool 1 (Qred (inject_Z (width img) / inject_Z (Z.pos c))) = true).
  { apply Qle_bool_iff. rewrite E. unfold Qle; simpl. lia. }
  rewrite Hge, E. reflexivity.
Qed.

Lemma log2_quotient_bounds (w c : Z) :
  0 < c -> c <= w ->
  0 <= Z.log2 (w / c) /\
  c * 2 ^ Z.log2 (w / c) <= w < c * 2 ^ (Z.log2 (w / c) + 1).
Proof.
  intros Hc Hw.
  assert (Hq : 0 < w / c) by (apply Z.div_str_pos; lia).
  pose proof (Z.log2_spec (w / c) Hq) as [Hlo Hhi].
  pose proof (Z.mul_div_le w c Hc).
  pose proof (Z.mul_succ_div_gt w c Hc).
  replace (Z.succ (Z.log2 (w / c))) with (Z.log2 (w / c) + 1) in Hhi by lia.
  split; [apply Z.log2_nonneg|]. nia.
Qed.

(** ** What a run leaves untouched, and when it ends *)


Lemma extends_refl (s : World) : extends s s.
Proof. split; [reflexivity|]. exists []. now rewrite app_nil_r. Qed.

Lemma extends_trans (s1 s2 s3 : World) :
  extends s1 s2 -> extends s2 s3 -> extends s1 s3.
Proof.
  intros [Ht1 [l1 Hl1]] [Ht2 [l2 Hl2]]. split; [congruence|].
  exists (l1 ++ l2). now rewrite Hl2, Hl1, app_assoc.
Qed.

Lemma steady_ret {A} (a : A) : steady (ret a).
Proof. intros s a' s' H. inversion H; subst. apply extends_refl. Qed.

Lemma steady_hang {A} : steady (@hang A).
Proof. intros s a s' H. discriminate H. Qed.

Lemma steady_call (c : HostCall) : steady (call c).
Proof.
  intros s a s' H. inversion H; subst. split; [reflexivity|]. now exists [c].
Qed.

Lemma steady_get_this : steady get_this.
Proof. intros s a s' H. inversion H; subst. apply extends_refl. Qed.

Lemma steady_bind {A B} (m : M A) (f : A -> M B) :
  steady m -> (forall a, steady (f a)) -> steady (bind m f).
Proof.
  intros Hm Hf s b s' H. unfold bind in H.
  destruct (m s) as [[a s1]|] eqn:E; [|discriminate].
  apply extends_trans with s1; [exact (Hm _ _ _ E)|exact (Hf _ _ _ _ H)].
Qed.

Create HintDb frame.
#[local] Hint Resolve steady_ret steady_hang steady_call steady_get_this : frame.
#[local] Hint Extern 2 (steady (bind _ _)) =>
  apply steady_bind; [|intros ?] : frame.

Lemma steady_bind_returned {A B} (m : M (outcome A)) (f : A -> M (outcome B)) :
  steady m -> (forall a, steady (f a)) -> steady (bind_returned m f).
Proof.
  intros Hm Hf. unfold bind_returned. apply steady_bind; [assumption|].
  intros [a|reason]; [apply Hf|apply steady_ret].
Qed.

#[local] Hint Extern 2 (steady (bind_returned _ _)) =>
  apply steady_bind_returned; [|intros ?] : frame.

Lemma steady_drawImage c s args : steady (drawImage c s args).
Proof.
  unfold drawImage. destruct (forallb finite args && unusable c s);
    auto with frame.
Qed.

Lemma steady_createElement_canvas : steady createElement_canvas.
Proof. unfold createElement_canvas. auto with frame. Qed.

#[local] Hint Resolve steady_drawImage steady_createElement_canvas : frame.

Lemma steady_scaledown fuel : forall i n w h canvas,
  steady (scaledown fuel i n w h canvas).
Proof.
  induction fuel as [|fuel IH]; intros i n w h canvas; simpl;
    destruct (lt_int i n); auto with frame.
Qed.

#[local] Hint Resolve steady_scaledown : frame.

Lemma steady_encode `{Host} r final : steady (encode r final).
Proof. unfold encode. auto with frame. Qed.

#[local] Hint Resolve steady_encode : frame.

Lemma steady_scaleAndCompress_executor `{Host} fuel img :
  steady (scaleAndCompress_executor fuel img).
Proof.
  unfold scaleAndCompress_executor.
  apply steady_bind; [auto with frame|intros final].
  apply steady_bind; [auto with frame|intros r].
  destruct (exceeds r img); [destruct (newDimensions r img)|];
    auto 10 with frame.
Qed.

Lemma steady_scaleAndCompress `{Host} fuel img :
  steady (scaleAndCompress fuel img).
Proof.
  unfold scaleAndCompress.
  apply steady_bind; [apply steady_scaleAndCompress_executor|].
  intros o. apply steady_ret.
Qed.

#[local] Hint Resolve steady_scaleAndCompress : frame.

Lemma steady_processFile `{Host} fuel file :
  steady (processFile fuel file).
Proof.
  unfold processFile, processFile_call, reader_load, image_load.
  apply steady_bind; [auto 10 with frame|intros p].
  destruct (readAsDataURL file) as [result|]; [|auto 10 with frame].
  destruct (decode result) as [img|]; auto 10 with frame.
Qed.

(** Running the monad: unfold the plumbing, keep the program. *)
Ltac run :=
  cbv beta iota zeta delta
    [bind bind_returned call ret get_this hang createElement_canvas encode];
  cbn [this calls].

(** ** What [drawImage] does *)

Lemma drawImage_returns c src args s :
  forallb finite args && unusable c src = false ->
  drawImage c src args s =
  Some (returned (paint c src args),
        {| this := this s; calls := calls s ++ [DrawImage c src args] |}).
Proof. intros E. unfold drawImage. run. now rewrite E. Qed.

Lemma drawImage_throws c src args s :
  forallb finite args && unusable c src = true ->
  drawImage c src args s =
  Some (thrown "InvalidStateError",
        {| this := this s; calls := calls s ++ [DrawImage c src args] |}).
Proof. intros E. unfold drawImage. run. now rewrite E. Qed.

Lemma drawImage_image c img args s :
  drawImage c (FromImage img) args s =
  Some (returned (paint c (FromImage img) args),
        {| this := this s; calls := calls s ++ [DrawImage c (FromImage img) args] |}).
Proof. apply drawImage_returns. apply andb_false_r. Qed.

Lemma drawImage_cases c src args s :
  exists o,
    drawImage c src args s =
      Some (o, {| this := this s; calls := calls s ++ [DrawImage c src args] |}) /\
    (o = returned (paint c src args) \/ o = thrown "InvalidStateError").
Proof.
  destruct (forallb finite args && unusable c src) eqn:E.
  - eexists. split; [now apply drawImage_throws|auto].
  - eexists. split; [now apply drawImage_returns|auto].
Qed.

Lemma zero_side_of_Z (z : Z) : zero_side (of_Z z) = (z =? 0).
Proof. unfold zero_side, of_Z; simpl. now rewrite Z.quot_1_r. Qed.

Lemma has_zero_side_paint c src args :
  has_zero_side (paint c src args) = has_zero_side c.
Proof. reflexivity. Qed.

Lemma div_not_finite (x y : num) : finite x = false -> finite (div x y) = false.
Proof.
  destruct x as [q| | |]; try discriminate; intros _;
    destruct y as [b| | |]; simpl; try reflexivity; destruct (is_neg b); reflexivity.
Qed.

Lemma mul_PInf_not_finite (x : num) : finite (mul x PInf) = false.
Proof.
  destruct x as [q| | |]; simpl; try reflexivity.
  destruct (is_zero q); [reflexivity|]. destruct (is_neg q); reflexivity.
Qed.

(** ** The scaledown loop *)

(** On a canvas with no side of zero pixels the loop makes its [k - i]
    rounds, all the same. *)
Lemma scaledown_exact fuel : forall i k w h canvas s,
  k - i <= Z.of_nat fuel ->
  has_zero_side canvas = false ->
  exists s',
    scaledown fuel i (IFin k) w h canvas s =
    Some (returned
            (mkCanvas (c_width canvas) (c_height canvas)
               (painted canvas ++ repeat (halve_draw w h) (Z.to_nat (k - i)))),
          s').
Proof.
  induction fuel as [|fuel IH]; intros i k w h canvas s Hk Hz; simpl;
    destruct (Z.ltb_spec i k) as [Hlt|Hge]; try lia.
  - exists s. replace (Z.to_nat (k - i)) with O by lia.
    destruct canvas; simpl. now rewrite app_nil_r.
  - run. rewrite drawImage_returns
      by (unfold unusable; cbn [source_canvas]; rewrite Hz; apply andb_false_r).
    fold (halve_draw w h).
    destruct (IH (i + 1) k w h (paint canvas FromSelf
                [of_Z 0; of_Z 0; div w (of_Z 2); div h (of_Z 2)])
                {| this := this s;
                   calls := calls s ++ [DrawImage canvas FromSelf
                     [of_Z 0; of_Z 0; div w (of_Z 2); div h (of_Z 2)]] |}
                ltac:(lia) Hz) as (s' & E).
    exists s'. unfold halve_draw at 1. rewrite E. f_equal. f_equal. f_equal.
    replace (Z.to_nat (k - i)) with (S (Z.to_nat (k - (i + 1)))) by lia.
    destruct canvas; simpl. unfold halve_draw. now rewrite <- app_assoc.
  - exists s. replace (Z.to_nat (k - i)) with O by lia.
    destruct canvas; simpl. now rewrite app_nil_r.
Qed.

(** On a canvas with a side of zero pixels the first round throws. *)
Lemma scaledown_throws fuel i k w h canvas s :
  i < k ->
  finite (div w (of_Z 2)) = true -> finite (div h (of_Z 2)) = true ->
  has_zero_side canvas = true ->
  scaledown (S fuel) i (IFin k) w h canvas s =
  Some (thrown "InvalidStateError",
        {| this := this s;
           calls := calls s ++ [DrawImage canvas FromSelf
             [of_Z 0; of_Z 0; div w (of_Z 2); div h (of_Z 2)]] |}).
Proof.
  intros Hlt Hw Hh Hz. simpl.
  replace (i <? k) with true by (symmetry; lia).
  run. rewrite drawImage_throws; [reflexivity|].
  unfold unusable; cbn [source_canvas forallb finite of_Z].
  now rewrite Hw, Hh, Hz.
Qed.

(** With [n = Infinity] the test [i < n] never fails, and with sides that
    are not finite no draw throws. *)
Lemma scaledown_hangs fuel : forall i w h canvas s,
  finite w = false ->
  scaledown fuel i IPInf w h canvas s = None.
Proof.
  induction fuel as [|fuel IH]; intros i w h canvas s Hw; simpl.
  - reflexivity.
  - run. rewrite drawImage_returns.
    + now apply IH.
    + cbn [forallb finite of_Z]. now rewrite (div_not_finite w (of_Z 2) Hw).
Qed.

(** Whatever the loop does, it leaves the sides of the canvas alone, and
    it throws nothing but [InvalidStateError]. *)
Lemma scaledown_finished fuel : forall i n w h canvas s o s',
  scaledown fuel i n w h canvas s = Some (o, s') ->
  (exists canvas', o = returned canvas' /\
     c_width canvas' = c_width canvas /\ c_height canvas' = c_height canvas) \/
  o = thrown "InvalidStateError".
Proof.
  induction fuel as [|fuel IH]; intros i n w h canvas s o s'; simpl;
    destruct (lt_int i n); intros H; try discriminate.
  - inversion H; subst. left. eauto.
  - revert H. run.
    destruct (drawImage_cases canvas FromSelf
                [of_Z 0; of_Z 0; div w (of_Z 2); div h (of_Z 2)] s)
      as (o1 & -> & [->| ->]).
    + intros H. apply IH in H. exact H.
    + intros H. inversion H; subst. now right.
  - inversion H; subst. left. eauto.
Qed.

(** The loop draws the canvas onto itself and nothing else. *)
Lemma scaledown_calls fuel : forall i n w h canvas s o s',
  scaledown fuel i n w h canvas s = Some (o, s') ->
  forall final src args,
    In (DrawImage final (FromCanvas src) args) (calls s') ->
    In (DrawImage final (FromCanvas src) args) (calls s).
Proof.
  induction fuel as [|fuel IH]; intros i n w h canvas s o s'; simpl;
    destruct (lt_int i n); intros H; try discriminate.
  - now inversion H.
  - revert H. run.
    destruct (drawImage_cases canvas FromSelf
                [of_Z 0; of_Z 0; div w (of_Z 2); div h (of_Z 2)] s)
      as (o1 & -> & [->| ->]); intros H final src args Hin.
    + apply (IH _ _ _ _ _ _ _ _ H) in Hin. cbn [calls] in Hin.
      rewrite in_app_iff in Hin. simpl in Hin.
      destruct Hin as [Hin|[Hin|[]]]; [assumption|discriminate].
    + inversion H; subst. cbn [calls] in Hin.
      rewrite in_app_iff in Hin. simpl in Hin.
      destruct Hin as [Hin|[Hin|[]]]; [assumption|discriminate].
  - now inversion H.
Qed.

Lemma last_snoc {A} (l : list A) (a d : A) : List.last (l ++ [a]) d = a.
Proof. apply List.last_last. Qed.

Section Runs.

Context {host : Host}.

(** The no-scale branch, call by call. *)
Lemma scaleAndCompress_unscaled fuel img s :
  exceeds (this s) img = false ->
  let final := mkCanvas (of_Z (width img)) (of_Z (height img))
                 [drawn (FromImage img)
                    [of_Z 0; of_Z 0; of_Z (width img); of_Z (height img)]] in
  scaleAndCompress fuel img s =
  Some (Fulfilled (toDataURL final "image/jpeg" (quality (this s))),
        {| this := this s;
           calls := ((calls s ++ [CreateCanvas]) ++
                     [DrawImage (mkCanvas (of_Z (width img)) (of_Z (height img)) [])
                        (FromImage img)
                        [of_Z 0; of_Z 0; of_Z (width img); of_Z (height img)]]) ++
                    [ToDataURL final "image/jpeg" (quality (this s))] |}).
Proof.
  intros He. unfold scaleAndCompress, scaleAndCompress_executor. run.
  rewrite He. run. rewrite drawImage_image. reflexivity.
Qed.

(** The scaling branch, draw by draw, when the halving count is finite
    and the working canvas has no side of zero pixels. *)
Lemma scaleAndCompress_scaled_exact fuel img s cWidth cHeight k :
  exceeds (this s) img = true ->
  newDimensions (this s) img = (cWidth, cHeight) ->
  halvings img cWidth = IFin k ->
  k <= Z.of_nat fuel ->
  let w := mul cWidth (Math_pow2 (IFin k)) in
  let h := mul cHeight (Math_pow2 (IFin k)) in
  zero_side w = false -> zero_side h = false ->
  let final := final_canvas cWidth cHeight
                 (working_canvas img w h (Z.to_nat k)) in
  exists s',
    scaleAndCompress fuel img s =
      Some (Fulfilled (toDataURL final "image/jpeg" (quality (this s))), s') /\
    encoded s' = Some final.
Proof.
  intros He Hd Hn Hk w h Hzw Hzh final.
  assert (Hz : forall p, has_zero_side (mkCanvas w h p) = false)
    by (intros p; unfold has_zero_side; cbn [c_width c_height];
        now rewrite Hzw, Hzh).
  unfold scaleAndCompress, scaleAndCompress_executor. run.
  rewrite He, Hd, Hn. run. rewrite drawImage_image. run.
  match goal with
  | |- context [scaledown fuel 0 (IFin k) ?w0 ?h0 ?c ?s0] =>
      destruct (scaledown_exact fuel 0 k w0 h0 c s0 ltac:(lia) (Hz _)) as (s' & E)
  end.
  rewrite E. rewrite Z.sub_0_r. run.
  rewrite drawImage_returns
    by (unfold unusable; cbn [source_canvas]; rewrite Hz; apply andb_false_r).
  eexists. split; [reflexivity|].
  unfold encoded; cbn [calls]. now rewrite last_snoc.
Qed.

(** The scaling branch never ends when the halving count is infinite. *)
Lemma scaleAndCompress_hangs fuel img s cWidth cHeight :
  exceeds (this s) img = true ->
  newDimensions (this s) img = (cWidth, cHeight) ->
  halvings img cWidth = IPInf ->
  scaleAndCompress fuel img s = None.
Proof.
  intros He Hd Hn.
  unfold scaleAndCompress, scaleAndCompress_executor. run.
  rewrite He, Hd, Hn. run. rewrite drawImage_image. run.
  rewrite scaledown_hangs; [reflexivity|apply mul_PInf_not_finite].
Qed.

(** The scaling branch is rejected at the first round of the loop when
    the working canvas has a side of zero pixels. *)
Lemma scaleAndCompress_throws fuel img s cWidth cHeight k :
  exceeds (this s) img = true ->
  newDimensions (this s) img = (cWidth, cHeight) ->
  halvings img cWidth = IFin k ->
  0 < k ->
  let w := mul cWidth (Math_pow2 (IFin k)) in
  let h := mul cHeight (Math_pow2 (IFin k)) in
  finite (div w (of_Z 2)) = true -> finite (div h (of_Z 2)) = true ->
  zero_side w || zero_side h = true ->
  scaleAndCompress (S fuel) img s =
  Some (Rejected "InvalidStateError",
        {| this := this s;
           calls := (((calls s ++ [CreateCanvas]) ++ [CreateCanvas]) ++
                     [DrawImage (mkCanvas w h []) (FromImage img)
                        [of_Z 0; of_Z 0; w; h]]) ++
                    [DrawImage (working_canvas img w h 0) FromSelf
                       [of_Z 0; of_Z 0; div w (of_Z 2); div h (of_Z 2)]] |}).
Proof.
  intros He Hd Hn Hk w h Hfw Hfh Hz.
  unfold scaleAndCompress, scaleAndCompress_executor. run.
  rewrite He, Hd, Hn. run. rewrite drawImage_image. run.
  rewrite scaledown_throws; [reflexivity|assumption..].
Qed.

(** Every run of [scaleAndCompress] that ends has either rejected its
    promise with [InvalidStateError], or fulfilled it with the encoding,
    at quality [this.compression / 100], of a canvas whose sides are the
    new dimensions or, in the no-scale branch, those of the image, and
    which it encoded in its last call. *)
Lemma scaleAndCompress_finished fuel img s p s' :
  scaleAndCompress fuel img s = Some (p, s') ->
  this s' = this s /\
  (p = Rejected "InvalidStateError" \/
   exists final,
     p = Fulfilled (toDataURL final "image/jpeg" (quality (this s))) /\
     encoded s' = Some final /\
     List.last (calls s') CreateCanvas =
       ToDataURL final "image/jpeg" (quality (this s)) /\
     (c_width final, c_height final) =
       (if exceeds (this s) img then newDimensions (this s) img
        else (of_Z (width img), of_Z (height img)))).
Proof.
  intros H. split; [exact (proj1 (steady_scaleAndCompress _ _ _ _ _ H))|].
  revert H. unfold scaleAndCompress, scaleAndCompress_executor. run.
  destruct (exceeds (this s) img).
  - destruct (newDimensions (this s) img) as [cW cH]. run.
    rewrite drawImage_image. run.
    destruct (scaledown _ _ _ _ _ _ _) as [[o1 s1]|] eqn:E; [|discriminate].
    destruct (scaledown_finished _ _ _ _ _ _ _ _ _ E) as [(c1 & -> & _)| ->].
    + match goal with
      | |- context [drawImage ?c ?src ?args s1] =>
          destruct (drawImage_cases c src args s1) as (o2 & -> & [->| ->])
      end.
      * intros H; inversion H; subst. right. eexists. split; [reflexivity|].
        unfold encoded; cbn [calls]. rewrite !last_snoc. auto.
      * intros H; inversion H; subst. now left.
    + intros H; inversion H; subst. now left.
  - rewrite drawImage_image. run.
    intros H; inversion H; subst. right. eexists. split; [reflexivity|].
    unfold encoded; cbn [calls]. rewrite !last_snoc. auto.
Qed.

(** The draws onto the final canvas: there is one, in the scaling branch,
    on a canvas sized to the new dimensions. *)
Lemma scaleAndCompress_final_draw fuel img s p s' final src args :
  scaleAndCompress fuel img s = Some (p, s') ->
  In (DrawImage final (FromCanvas src) args) (calls s') ->
  In (DrawImage final (FromCanvas src) args) (calls s) \/
  (exceeds (this s) img = true /\
   final = mkCanvas (fst (newDimensions (this s) img))
             (snd (newDimensions (this s) img)) []).
Proof.
  unfold scaleAndCompress, scaleAndCompress_executor. run.
  destruct (exceeds (this s) img).
  - destruct (newDimensions (this s) img) as [cW cH]. run.
    rewrite drawImage_image. run.
    destruct (scaledown _ _ _ _ _ _ _) as [[o1 s1]|] eqn:E; [|discriminate].
    pose proof (scaledown_calls _ _ _ _ _ _ _ _ _ E final src args) as Hl.
    cbn [calls] in Hl.
    assert (Hpre : In (DrawImage final (FromCanvas src) args) (calls s1) ->
                   In (DrawImage final (FromCanvas src) args) (calls s)).
    { intros Hin. apply Hl in Hin. rewrite !in_app_iff in Hin. simpl in Hin.
      repeat destruct Hin as [Hin|Hin]; try discriminate; tauto. }
    destruct (scaledown_finished _ _ _ _ _ _ _ _ _ E) as [(c1 & -> & _)| ->].
    + match goal with
      | |- context [drawImage ?c ?src0 ?args0 s1] =>
          destruct (drawImage_cases c src0 args0 s1) as (o2 & -> & [->| ->])
      end; intros H Hin; inversion H; subst; cbn [calls] in Hin;
        rewrite !in_app_iff in Hin; simpl in Hin.
      * destruct Hin as [[Hin|[Hin|[]]]|[Hin|[]]]; try discriminate; auto.
        inversion Hin; subst. right. split; reflexivity.
      * destruct Hin as [Hin|[Hin|[]]]; auto.
        inversion Hin; subst. right. split; reflexivity.
    + intros H Hin; inversion H; subst. auto.
  - rewrite drawImage_image. run.
    intros H Hin; inversion H; subst. cbn [calls] in Hin.
    rewrite !in_app_iff in Hin. simpl in Hin.
    repeat destruct Hin as [Hin|Hin]; try discriminate; tauto.
Qed.

End Runs.

(** ** The scaling decision and the new dimensions *)

Lemma exceeds_true_iff (r : Resizer) (img : Image) :
  exceeds r img = true <-> maxSize r < width img \/ maxSize r < height img.
Proof. unfold exceeds. rewrite orb_true_iff, !Z.gtb_ltb, !Z.ltb_lt. tauto. Qed.

Lemma exceeds_false_iff (r : Resizer) (img : Image) :
  exceeds r img = false <-> width img <= maxSize r /\ height img <= maxSize r.
Proof. unfold exceeds. rewrite orb_false_iff, !Z.gtb_ltb, !Z.ltb_ge. tauto. Qed.

(** On an image that needs scaling the new width is an integer between 0
    and the original width. *)
Lemma new_width_bounds (r : Resizer) (img : Image) :
  0 < maxSize r -> 0 < width img -> 0 < height img ->
  maxSize r < width img \/ maxSize r < height img ->
  exists c, fst (newDimensions r img) = of_Z c /\ 0 <= c <= width img.
Proof.
  intros Hm Hw Hh Hex.
  destruct (Z_lt_le_dec (height img) (width img)) as [Hlt|Hle].
  - rewrite newDimensions_wide by lia. exists (maxSize r). split; [reflexivity|lia].
  - rewrite newDimensions_tall by lia. eexists; split; [reflexivity|]. split.
    + apply round_div_nonneg; nia.
    + apply Z.lt_succ_r, Z.div_lt_upper_bound; nia.
Qed.

(** The halving count of an image that needs scaling and whose new width
    is not 0: it is finite, not negative, and the largest count whose
    power of two times the new width still fits the original width. *)
Lemma halvings_spec (r : Resizer) (img : Image) (c : Z) :
  0 < maxSize r -> 0 < width img -> 0 < height img ->
  maxSize r < width img \/ maxSize r < height img ->
  fst (newDimensions r img) = of_Z c -> c <> 0 ->
  exists n, halvings img (of_Z c) = IFin n /\ 0 <= n /\
            c * 2 ^ n <= width img < c * 2 ^ (n + 1).
Proof.
  intros Hm Hw Hh Hex Hc Hnz.
  destruct (new_width_bounds r img Hm Hw Hh Hex) as (c' & Hc' & Hb).
  rewrite Hc in Hc'. apply of_Z_inj in Hc'. subst c'.
  exists (Z.log2 (width img / c)).
  rewrite halvings_positive by lia.
  split; [reflexivity|]. apply log2_quotient_bounds; lia.
Qed.

Lemma halvings_largest (w c n n' : Z) :
  0 < c -> 0 <= n' -> w < c * 2 ^ (n + 1) -> c * 2 ^ n' <= w -> n' <= n.
Proof.
  intros Hc Hn' Hhi Hlo.
  destruct (Z_le_gt_dec n' n) as [|Hgt]; [assumption|exfalso].
  assert (2 ^ (n + 1) <= 2 ^ n') by (apply Z.pow_le_mono_r; lia).
  nia.
Qed.

Lemma fin_of_Z (q : Q) (z : Z) : (q == inject_Z z)%Q -> fin q = of_Z z.
Proof.
  intros E. unfold fin, of_Z. f_equal.
  rewrite (Qred_complete _ _ E). apply Qred_identity. apply Z.gcd_1_r.
Qed.

Lemma mul_of_Z (a b : Z) : mul (of_Z a) (of_Z b) = of_Z (a * b).
Proof.
  unfold mul, of_Z. apply fin_of_Z. now rewrite inject_Z_mult.
Qed.

Lemma working_side (c k : Z) :
  0 <= k -> mul (of_Z c) (Math_pow2 (IFin k)) = of_Z (c * 2 ^ k).
Proof.
  intros Hk. unfold Math_pow2.
  replace (0 <=? k) with true by (symmetry; lia). apply mul_of_Z.
Qed.

Lemma halvings_zero_width (img : Image) :
  0 < width img -> halvings img (of_Z 0) = IPInf.
Proof.
  intros Hw. unfold halvings, div, of_Z, is_zero, is_neg; cbn [Qnum inject_Z].
  replace (width img =? 0) with false by (symmetry; lia).
  replace (width img <? 0) with false by (symmetry; lia).
  reflexivity.
Qed.

Lemma new_width_zero_iff (r : Resizer) (img : Image) :
  0 < maxSize r -> 0 < width img -> 0 < height img ->
  (fst (newDimensions r img) = of_Z 0 <-> 2 * width img * maxSize r < height img).
Proof.
  intros Hm Hw Hh.
  destruct (Z_lt_le_dec (height img) (width img)) as [Hlt|Hle].
  - rewrite newDimensions_wide by lia. cbn [fst]. split.
    + intros E. apply of_Z_inj in E. lia.
    + intros H. nia.
  - rewrite newDimensions_tall by lia. cbn [fst]. split.
    + intros E. apply of_Z_inj in E.
      apply Z.div_small_iff in E; [|lia]. nia.
    + intros H. f_equal. apply Z.div_small. nia.
Qed.


Lemma new_height_zero_iff (r : Resizer) (img : Image) :
  0 < maxSize r -> 0 < width img -> 0 < height img ->
  (snd (newDimensions r img) = of_Z 0 <-> 2 * height img * maxSize r < width img).
Proof.
  intros Hm Hw Hh.
  destruct (Z_lt_le_dec (height img) (width img)) as [Hlt|Hle].
  - rewrite newDimensions_wide by lia. cbn [snd]. split.
    + intros E. apply of_Z_inj in E.
      apply Z.div_small_iff in E; [|lia]. nia.
    + intros H. f_equal. apply Z.div_small. nia.
  - rewrite newDimensions_tall by lia. cbn [snd]. split.
    + intros E. apply of_Z_inj in E. lia.
    + intros H. nia.
Qed.

(** The new dimensions of an image with positive sides are integers. *)
Lemma new_sides (r : Resizer) (img : Image) :
  0 < maxSize r -> 0 < width img -> 0 < height img ->
  exists c d, newDimensions r img = (of_Z c, of_Z d) /\ 0 <= c /\ 0 <= d.
Proof.
  intros Hm Hw Hh.
  destruct (Z_lt_le_dec (height img) (width img)) as [Hlt|Hle].
  - rewrite newDimensions_wide by lia. eexists; eexists. split; [reflexivity|].
    split; [lia|]. apply round_div_nonneg; nia.
  - rewrite newDimensions_tall by lia. eexists; eexists. split; [reflexivity|].
    split; [|lia]. apply round_div_nonneg; nia.
Qed.

Lemma finite_half (z : Z) : finite (div (of_Z z) (of_Z 2)) = true.
Proof. reflexivity. Qed.

Lemma zero_side_working (c k : Z) :
  0 <= k ->
  zero_side (mul (of_Z c) (Math_pow2 (IFin k))) = (c =? 0).
Proof.
  intros Hk. rewrite working_side, zero_side_of_Z by assumption.
  assert (0 < 2 ^ k) by (apply Z.pow_pos_nonneg; lia).
  destruct (Z.eqb_spec c 0); destruct (Z.eqb_spec (c * 2 ^ k) 0); auto; nia.
Qed.

(** ** How a run on an image with positive sides ends *)

Section Ending.

Context {host : Host}.

(** The scaling branch, draw by draw. *)
Lemma scaleAndCompress_scaled_draws
    (fuel : nat) (img : Image) (s : World) (c d : Z) :
  0 < maxSize (this s) -> 0 < width img -> 0 < height img ->
  maxSize (this s) < width img \/ maxSize (this s) < height img ->
  newDimensions (this s) img = (of_Z c, of_Z d) -> c <> 0 -> d <> 0 ->
  Z.log2 (width img / c) <= Z.of_nat fuel ->
  let n := Z.log2 (width img / c) in
  let final := final_canvas (of_Z c) (of_Z d)
                 (working_canvas img (of_Z (c * 2 ^ n)) (of_Z (d * 2 ^ n))
                    (Z.to_nat n)) in
  exists s',
    scaleAndCompress fuel img s =
      Some (Fulfilled (toDataURL final "image/jpeg" (quality (this s))), s') /\
    encoded s' = Some final.
Proof.
  intros Hm Hw Hh Hex Hd Hc Hd0 Hfuel n final.
  assert (Hfst : fst (newDimensions (this s) img) = of_Z c) by now rewrite Hd.
  destruct (new_width_bounds (this s) img Hm Hw Hh Hex) as (c' & Hc' & Hb).
  rewrite Hfst in Hc'. apply of_Z_inj in Hc'. subst c'.
  assert (Hn : halvings img (of_Z c) = IFin n)
    by (apply halvings_positive; lia).
  assert (Hn0 : 0 <= n) by apply Z.log2_nonneg.
  destruct (scaleAndCompress_scaled_exact fuel img s (of_Z c) (of_Z d) n)
    as (s' & Hrun & Henc);
    [now apply exceeds_true_iff|assumption|assumption|assumption
    |rewrite zero_side_working by assumption; now apply Z.eqb_neq
    |rewrite zero_side_working by assumption; now apply Z.eqb_neq|].
  rewrite !working_side in Hrun, Henc by assumption.
  exists s'. split; assumption.
Qed.

(** Both new sides at least half a pixel: the run ends fulfilled. *)
Lemma scaleAndCompress_ends_fulfilled (r : Resizer) (img : Image) :
  0 < maxSize r -> 0 < width img -> 0 < height img ->
  height img <= 2 * width img * maxSize r ->
  width img <= 2 * height img * maxSize r ->
  exists fuel, forall s, this s = r ->
    exists url s', scaleAndCompress fuel img s = Some (Fulfilled url, s').
Proof.
  intros Hm Hw Hh Hok1 Hok2.
  destruct (exceeds r img) eqn:He.
  - apply exceeds_true_iff in He.
    destruct (new_sides r img Hm Hw Hh) as (c & d & Hd & Hc0 & Hd0).
    assert (Hc : c <> 0).
    { intros ->. assert (E : fst (newDimensions r img) = of_Z 0) by now rewrite Hd.
      apply new_width_zero_iff in E; lia. }
    assert (Hdn : d <> 0).
    { intros ->. assert (E : snd (newDimensions r img) = of_Z 0) by now rewrite Hd.
      apply new_height_zero_iff in E; lia. }
    exists (Z.to_nat (Z.log2 (width img / c))). intros s Hs. subst r.
    destruct (scaleAndCompress_scaled_draws
                (Z.to_nat (Z.log2 (width img / c))) img s c d
                Hm Hw Hh He Hd Hc Hdn) as (s' & Hrun & _).
    { rewrite Z2Nat.id; [lia|apply Z.log2_nonneg]. }
    eauto.
  - exists O. intros s Hs. subst r.
    rewrite (scaleAndCompress_unscaled O img s He). eauto.
Qed.

(** The new height rounds to 0: the first round of the loop throws, and
    the run is rejected after four calls. *)
Lemma scaleAndCompress_rejected (fuel : nat) (img : Image) (s : World) :
  0 < maxSize (this s) -> 0 < width img -> 0 < height img ->
  2 * height img * maxSize (this s) < width img ->
  exists c1 a1 c2 a2,
    has_zero_side c2 = true /\
    scaleAndCompress (S fuel) img s =
    Some (Rejected "InvalidStateError",
          {| this := this s;
             calls := (((calls s ++ [CreateCanvas]) ++ [CreateCanvas]) ++
                       [DrawImage c1 (FromImage img) a1]) ++
                      [DrawImage c2 FromSelf a2] |}).
Proof.
  intros Hm Hw Hh Hflat.
  assert (Hd : newDimensions (this s) img = (of_Z (maxSize (this s)), of_Z 0)).
  { rewrite newDimensions_wide by nia. f_equal. f_equal.
    apply Z.div_small. nia. }
  assert (Hn : halvings img (of_Z (maxSize (this s))) =
               IFin (Z.log2 (width img / maxSize (this s))))
    by (apply halvings_positive; nia).
  assert (Hq : 2 <= width img / maxSize (this s))
    by (apply Z.div_le_lower_bound; nia).
  assert (Hk : 0 < Z.log2 (width img / maxSize (this s)))
    by (apply Z.log2_pos; lia).
  pose proof (scaleAndCompress_throws fuel img s _ _ _
                ltac:(apply exceeds_true_iff; nia) Hd Hn Hk) as Hrun.
  cbv zeta in Hrun. rewrite !working_side in Hrun by lia.
  do 4 eexists. split; [|apply Hrun; try apply finite_half].
  - unfold has_zero_side, working_canvas; cbn [c_width c_height].
    rewrite !zero_side_of_Z. apply orb_true_r.
  - rewrite !zero_side_of_Z. apply orb_true_r.
Qed.

(** Without fuel for one round that run does not get anywhere. *)
Lemma scaleAndCompress_rejected_needs_fuel (img : Image) (s : World) :
  0 < maxSize (this s) -> 0 < width img -> 0 < height img ->
  2 * height img * maxSize (this s) < width img ->
  scaleAndCompress O img s = None.
Proof.
  intros Hm Hw Hh Hflat.
  assert (Hd : newDimensions (this s) img = (of_Z (maxSize (this s)), of_Z 0)).
  { rewrite newDimensions_wide by nia. f_equal. f_equal.
    apply Z.div_small. nia. }
  assert (Hn : halvings img (of_Z (maxSize (this s))) =
               IFin (Z.log2 (width img / maxSize (this s))))
    by (apply halvings_positive; nia).
  assert (Hq : 2 <= width img / maxSize (this s))
    by (apply Z.div_le_lower_bound; nia).
  assert (Hk : 0 < Z.log2 (width img / maxSize (this s)))
    by (apply Z.log2_pos; lia).
  unfold scaleAndCompress, scaleAndCompress_executor. run.
  replace (exceeds (this s) img) with true
    by (symmetry; apply exceeds_true_iff; nia).
  rewrite Hd, Hn. run. rewrite drawImage_image. run. simpl scaledown.
  replace (0 <? Z.log2 (width img / maxSize (this s))) with true
    by (symmetry; lia).
  reflexivity.
Qed.

(** The new width rounds to 0: the run never ends. *)
Lemma scaleAndCompress_never_ends (fuel : nat) (img : Image) (s : World) :
  0 < maxSize (this s) -> 0 < width img -> 0 < height img ->
  2 * width img * maxSize (this s) < height img ->
  scaleAndCompress fuel img s = None.
Proof.
  intros Hm Hw Hh Hbad.
  destruct (newDimensions (this s) img) as [cW cH] eqn:Hd.
  assert (Hc : cW = of_Z 0).
  { change cW with (fst (cW, cH)). rewrite <- Hd.
    now apply new_width_zero_iff. }
  subst cW.
  apply scaleAndCompress_hangs with (cWidth := of_Z 0) (cHeight := cH);
    [apply exceeds_true_iff; nia|assumption|now apply halvings_zero_width].
Qed.

(** Unless the new width rounds to 0 the run ends, one way or the other. *)
Lemma scaleAndCompress_ends (r : Resizer) (img : Image) :
  0 < maxSize r -> 0 < width img -> 0 < height img ->
  height img <= 2 * width img * maxSize r ->
  exists fuel, forall s, this s = r ->
    exists p s', scaleAndCompress fuel img s = Some (p, s').
Proof.
  intros Hm Hw Hh Hok.
  destruct (Z_lt_le_dec (2 * height img * maxSize r) (width img)) as [Hflat|Hok2].
  - exists 1%nat. intros s Hs. subst r.
    destruct (scaleAndCompress_rejected O img s Hm Hw Hh Hflat)
      as (c1 & a1 & c2 & a2 & _ & E).
    rewrite E. eauto.
  - destruct (scaleAndCompress_ends_fulfilled r img Hm Hw Hh Hok Hok2)
      as (fuel & Hrun).
    exists fuel. intros s Hs. destruct (Hrun s Hs) as (url & s' & E). eauto.
Qed.

End Ending.

(** ** Properties of [scaleAndCompress] *)

(** The scenarios of the specification: 2000 by 1000 under 500 is halved
    twice from 2000 by 1000 and encoded at 500 by 250; 600 by 500 is drawn
    straight at 500 by 417. *)
Example scenario_2000_1000 :
  newDimensions r500 wide = (of_Z 500, of_Z 250) /\
  halvings wide (of_Z 500) = IFin 2 /\
  mul (of_Z 500) (Math_pow2 (IFin 2)) = of_Z 2000 /\
  mul (of_Z 250) (Math_pow2 (IFin 2)) = of_Z 1000 /\
  exists url s' final,
    @scaleAndCompress toy_host 2 wide (fresh r500) = Some (Fulfilled url, s') /\
    encoded s' = Some final /\
    c_width final = of_Z 500 /\ c_height final = of_Z 250.
Proof.
  repeat split. vm_compute. eexists; eexists; eexists.
  repeat split.
Qed.

Example scenario_600_500 :
  let img := {| width := 600; height := 500 |} in
  newDimensions r500 img = (of_Z 500, of_Z 417) /\
  halvings img (of_Z 500) = IFin 0.
Proof. split; reflexivity. Qed.


(** C2.  [scaleAndCompress] at [maxSize = 100] on a 1000 by 1 image, which
    has a side greater than [maxSize]: the new dimensions are 100 by
    [Math.round(0.1) = 0], the working canvas is 800 by 0, the first
    round of the loop draws it onto itself, which throws
    [InvalidStateError], and the promise is rejected: nothing is encoded
    and there is no output whose longer side is [maxSize].  On a 1 by 1000
    image the new dimensions are 0 by 100 and the run never ends. *)
Theorem scaleAndCompress_flat_image_has_no_output (host : Host) :
  (0 < maxSize r100 /\ 0 < width flat /\ 0 < height flat /\
   maxSize r100 < width flat /\
   newDimensions r100 flat = (of_Z 100, of_Z 0) /\
   forall fuel, exists s',
     scaleAndCompress (S fuel) flat (fresh r100) =
       Some (Rejected "InvalidStateError", s') /\
     encoded s' = None /\
     forall c mime q, ~ In (ToDataURL c mime q) (calls s')) /\
  (0 < width thin /\ 0 < height thin /\ maxSize r100 < height thin /\
   newDimensions r100 thin = (of_Z 0, of_Z 100) /\
   forall fuel, scaleAndCompress fuel thin (fresh r100) = None).
Proof.
  split.
  - do 5 (split; [reflexivity|]). intros fuel.
    destruct (@scaleAndCompress_rejected host fuel flat (fresh r100))
      as (c1 & a1 & c2 & a2 & _ & E); try (simpl; lia).
    eexists. split; [exact E|]. split.
    + unfold encoded; cbn [calls]. now rewrite last_snoc.
    + intros c mime q Hin. cbn [calls fresh] in Hin.
      rewrite ?in_app_iff in Hin. simpl in Hin.
      repeat destruct Hin as [Hin|Hin]; try discriminate; assumption.
  - do 4 (split; [reflexivity|]). intros fuel.
    apply scaleAndCompress_never_ends; simpl; lia.
Qed.

(** C9, as stated, fails: no run on an image with positive sides under
    a positive [maxSize] ever sizes the final canvas with a side of zero
    pixels.  The final canvas is sized on lines 80 and 81, right before it
    is drawn on, which is the only draw that reads from a canvas other than
    its own target; no run makes that draw onto a canvas with a zero
    side. *)
Lemma no_run_sizes_the_final_canvas_with_a_zero_side :
  ~ exists (host : Host) (r : Resizer) (img : Image) (fuel : nat)
           (p : Promise) (s' : World),
      0 < maxSize r /\ 0 < width img /\ 0 < height img /\
      scaleAndCompress fuel img (fresh r) = Some (p, s') /\
      exists final src args,
        In (DrawImage final (FromCanvas src) args) (calls s') /\
        has_zero_side final = true.
Proof.
  intros (host & r & img & fuel & p & s' & Hm & Hw & Hh & Hrun &
          final & src & args & Hin & Hz).
  destruct (scaleAndCompress_final_draw _ _ _ _ _ _ _ _ Hrun Hin)
    as [[]|[_ Hf]].
  cbn [this fresh] in Hf.
  destruct (new_sides r img Hm Hw Hh) as (c & d & Hd & Hc0 & Hd0).
  rewrite Hd in Hf. cbn [fst snd] in Hf. subst final.
  unfold has_zero_side in Hz. cbn [c_width c_height] in Hz.
  rewrite !zero_side_of_Z in Hz. apply orb_true_iff in Hz.
  destruct Hz as [Hz|Hz]; apply Z.eqb_eq in Hz; subst.
  - assert (E : fst (newDimensions r img) = of_Z 0) by now rewrite Hd.
    apply new_width_zero_iff in E; try assumption.
    rewrite (scaleAndCompress_never_ends fuel img (fresh r)) in Hrun;
      [discriminate|assumption..].
  - assert (E : snd (newDimensions r img) = of_Z 0) by now rewrite Hd.
    apply new_height_zero_iff in E; try assumption.
    destruct fuel as [|fuel].
    + rewrite (scaleAndCompress_rejected_needs_fuel img (fresh r)) in Hrun;
        [discriminate|assumption..].
    + destruct (scaleAndCompress_rejected fuel img (fresh r) Hm Hw Hh E)
        as (c1 & a1 & c2 & a2 & _ & E').
      rewrite E' in Hrun. inversion Hrun; subst. cbn [calls fresh] in Hin.
      rewrite ?in_app_iff in Hin. simpl in Hin.
      repeat destruct Hin as [Hin|Hin]; try discriminate; assumption.
Qed.

(** C9, amended.  There are images with positive sides, one of them
    greater than [maxSize], whose shorter new side rounds to 0, and the
    final canvas is then never sized.  A 1000 by 1 image under
    [maxSize = 100] gets the new dimensions 100 by 0 and a working canvas
    of 800 by 0; the first round of the loop throws and the promise is
    rejected before the final canvas is touched.  A 1 by 1000 image gets
    the new width 0: the quotient [img.width / cWidth] is a division by
    zero with value [Infinity], so is the halving count, the sides [w] and
    [h] of the working canvas are [NaN] and [Infinity], and the loop never
    ends. *)
Theorem zero_rounded_side_rejects_or_hangs (host : Host) :
  (0 < maxSize r100 /\ 0 < width flat /\ 0 < height flat /\
   exceeds r100 flat = true /\
   newDimensions r100 flat = (of_Z 100, of_Z 0) /\
   mul (of_Z 100) (Math_pow2 (halvings flat (of_Z 100))) = of_Z 800 /\
   mul (of_Z 0) (Math_pow2 (halvings flat (of_Z 100))) = of_Z 0 /\
   forall fuel, exists s',
     scaleAndCompress (S fuel) flat (fresh r100) =
       Some (Rejected "InvalidStateError", s') /\
     forall final src args,
       ~ In (DrawImage final (FromCanvas src) args) (calls s')) /\
  (0 < maxSize r100 /\ 0 < width thin /\ 0 < height thin /\
   exceeds r100 thin = true /\ width thin < height thin /\
   newDimensions r100 thin = (of_Z 0, of_Z 100) /\
   div (of_Z (width thin)) (of_Z 0) = PInf /\
   halvings thin (of_Z 0) = IPInf /\
   mul (of_Z 0) (Math_pow2 (halvings thin (of_Z 0))) = NaN /\
   mul (of_Z 100) (Math_pow2 (halvings thin (of_Z 0))) = PInf /\
   (forall z : Z, mul (of_Z 0) (Math_pow2 (halvings thin (of_Z 0))) <> of_Z z /\
                  mul (of_Z 100) (Math_pow2 (halvings thin (of_Z 0))) <> of_Z z) /\
   forall fuel, scaleAndCompress fuel thin (fresh r100) = None).
Proof.
  split.
  - do 7 (split; [reflexivity|]). intros fuel.
    destruct (@scaleAndCompress_rejected host fuel flat (fresh r100))
      as (c1 & a1 & c2 & a2 & _ & E); try (simpl; lia).
    eexists. split; [exact E|].
    intros final src args Hin. cbn [calls fresh] in Hin.
    rewrite ?in_app_iff in Hin. simpl in Hin.
    repeat destruct Hin as [Hin|Hin]; try discriminate; assumption.
  - do 10 (split; [reflexivity|]). split.
    + intros z. split; vm_compute; discriminate.
    + intros fuel. apply scaleAndCompress_never_ends; simpl; lia.
Qed.

(** C3.  The halving count at [maxSize = 100] and a 1 by 1000 image, which
    needs scaling: the new width is [Math.round(100 / 1000) = 0], the count
    is [Math.floor(Math.log2(1 / 0)) = Infinity], which is no integer, and
    no integer [n] has [0 * 2^n <= 1 < 0 * 2^(n+1)].  (On every image that
    needs scaling and whose new width is not 0 the count is the largest
    [n >= 0] with [cWidth * 2^n <= img.width]: [halvings_spec],
    [halvings_largest].) *)
Theorem halvings_thin_image_infinite :
  exceeds r100 thin = true /\
  newDimensions r100 thin = (of_Z 0, of_Z 100) /\
  halvings thin (fst (newDimensions r100 thin)) = IPInf /\
  (forall n : Z, halvings thin (fst (newDimensions r100 thin)) <> IFin n) /\
  (forall n : Z, ~ (0 * 2 ^ n <= width thin < 0 * 2 ^ (n + 1))).
Proof.
  repeat split; try reflexivity.
  - intros n. vm_compute. discriminate.
  - intros n [_ H]. simpl in H. lia.
Qed.

(** C7.  [scaleAndCompress] at [maxSize = 100] on a 1 by 1000 image: the
    new width is 0, the halving count is [Infinity], the loop test
    [i < n] never fails, and the promise is never resolved, whatever the
    browser and however long the run. *)
Theorem scaleAndCompress_thin_image_never_resolves
    (host : Host) (fuel : nat) (log : list HostCall) :
  scaleAndCompress fuel thin {| this := r100; calls := log |} = None.
Proof.
  apply scaleAndCompress_hangs with (cWidth := of_Z 0) (cHeight := of_Z 100);
    reflexivity.
Qed.

(** C5.  For every image with [width <= maxSize] and [height <= maxSize]
    the run takes the no-scale branch: one canvas is created, it is sized
    to the sides of the image, the image is drawn onto it unscaled, and it
    is the canvas that is encoded; the promise is fulfilled. *)
Theorem scaleAndCompress_no_scale_branch
    (host : Host) (fuel : nat) (img : Image) (s : World) :
  width img <= maxSize (this s) -> height img <= maxSize (this s) ->
  exists final url s',
    scaleAndCompress fuel img s = Some (Fulfilled url, s') /\
    encoded s' = Some final /\
    c_width final = of_Z (width img) /\ c_height final = of_Z (height img) /\
    painted final =
      [drawn (FromImage img)
         [of_Z 0; of_Z 0; of_Z (width img); of_Z (height img)]] /\
    calls s' =
      calls s ++
      [CreateCanvas;
       DrawImage (mkCanvas (of_Z (width img)) (of_Z (height img)) [])
         (FromImage img) [of_Z 0; of_Z 0; of_Z (width img); of_Z (height img)];
       ToDataURL final "image/jpeg" (quality (this s))].
Proof.
  intros Hw Hh.
  assert (He : exceeds (this s) img = false) by (apply exceeds_false_iff; lia).
  rewrite (scaleAndCompress_unscaled fuel img s He).
  eexists; eexists; eexists. split; [reflexivity|].
  unfold encoded; cbn [this calls]. rewrite last_snoc.
  repeat split. now rewrite <- !app_assoc.
Qed.

(** A 300 by 200 image under [maxSize = 500] keeps its sides. *)
Lemma scaleAndCompress_no_scale_branch_witness :
  exists final url s',
    @scaleAndCompress toy_host 0 small (fresh r500) = Some (Fulfilled url, s') /\
    encoded s' = Some final /\
    c_width final = of_Z 300 /\ c_height final = of_Z 200 /\
    painted final =
      [drawn (FromImage small) [of_Z 0; of_Z 0; of_Z 300; of_Z 200]] /\
    calls s' =
      [] ++
      [CreateCanvas;
       DrawImage (mkCanvas (of_Z 300) (of_Z 200) []) (FromImage small)
         [of_Z 0; of_Z 0; of_Z 300; of_Z 200];
       ToDataURL final "image/jpeg" (quality r500)].
Proof.
  apply (scaleAndCompress_no_scale_branch toy_host 0 small (fresh r500));
    simpl; lia.
Defined.


(** C4, as stated, fails on a 1000 by 1000 image under [maxSize = 100],
    which needs scaling: both new sides equal [maxSize], not exactly one,
    and the test [img.width > img.height] sends the square image to the
    [else] branch, not to the width branch. *)
Lemma square_image_both_sides_clamped_by_else_branch :
  exceeds r100 square = true /\
  width square = height square /\
  ~ exactly_one (fst (newDimensions r100 square) = of_Z (maxSize r100))
                (snd (newDimensions r100 square) = of_Z (maxSize r100)) /\
  ~ (width square = height square -> width_is_longer square = true).
Proof.
  repeat split.
  - intros [[_ H]|[H _]]; apply H; reflexivity.
  - intros H. specialize (H eq_refl). discriminate H.
Qed.

(** C4, amended.  For every image with positive sides that needs scaling
    under a positive [maxSize], at least one of the new sides equals
    [maxSize]: the new width when [img.width > img.height] (the width
    branch), the new height otherwise.  A square image takes the [else]
    branch, the one that clamps the height, and both its new sides equal
    [maxSize]. *)
Theorem newDimensions_at_least_one_side_clamped (r : Resizer) (img : Image) :
  0 < maxSize r -> 0 < width img -> 0 < height img ->
  maxSize r < width img \/ maxSize r < height img ->
  (fst (newDimensions r img) = of_Z (maxSize r) \/
   snd (newDimensions r img) = of_Z (maxSize r)) /\
  (width_is_longer img = true <-> height img < width img) /\
  (width_is_longer img = true -> fst (newDimensions r img) = of_Z (maxSize r)) /\
  (width_is_longer img = false -> snd (newDimensions r img) = of_Z (maxSize r)) /\
  (width img = height img ->
     width_is_longer img = false /\
     newDimensions r img = (of_Z (maxSize r), of_Z (maxSize r))).
Proof.
  intros Hm Hw Hh Hex.
  assert (Hlong : width_is_longer img = true <-> height img < width img)
    by (unfold width_is_longer; rewrite Z.gtb_ltb; apply Z.ltb_lt).
  assert (Hfst : width_is_longer img = true ->
                 fst (newDimensions r img) = of_Z (maxSize r))
    by (intros E; unfold newDimensions; now rewrite E).
  assert (Hsnd : width_is_longer img = false ->
                 snd (newDimensions r img) = of_Z (maxSize r))
    by (intros E; unfold newDimensions; now rewrite E).
  repeat split; try tauto.
  - destruct (width_is_longer img); auto.
  - destruct (width_is_longer img); [|reflexivity].
    assert (height img < width img) by now apply Hlong. lia.
  - rewrite newDimensions_tall by lia.
    replace (width img) with (height img) by lia.
    now rewrite round_div_square.
Qed.

(** The square image of the counterexample. *)
Lemma newDimensions_at_least_one_side_clamped_witness :
  (fst (newDimensions r100 square) = of_Z 100 \/
   snd (newDimensions r100 square) = of_Z 100) /\
  (width_is_longer square = true <-> height square < width square) /\
  (width_is_longer square = true -> fst (newDimensions r100 square) = of_Z 100) /\
  (width_is_longer square = false -> snd (newDimensions r100 square) = of_Z 100) /\
  (width square = height square ->
     width_is_longer square = false /\
     newDimensions r100 square = (of_Z 100, of_Z 100)).
Proof.
  apply (newDimensions_at_least_one_side_clamped r100 square); simpl; lia.
Defined.

(** ** Properties of [processFile] *)

Lemma smaller_cases (generatedURL result : string) :
  (smaller generatedURL result = generatedURL /\
   (String.length generatedURL < String.length result)%nat) \/
  (smaller generatedURL result = result /\
   (String.length result <= String.length generatedURL)%nat).
Proof.
  unfold smaller.
  destruct (Z.ltb_spec (Z.of_nat (String.length generatedURL))
                       (Z.of_nat (String.length result))); [left|right];
    split; auto; lia.
Qed.

Section Pipeline.

Context {host : Host}.

(** [processFile], stage by stage. *)
Lemma processFile_stages fuel file s :
  processFile fuel file s =
  match readAsDataURL file with
  | None =>
      Some (after_type_test file,
            {| this := this s;
               calls := (calls s ++ [NewFileReader]) ++ [ReadAsDataURL file] |})
  | Some result =>
      match decode result with
      | None => Some (after_type_test file, after_load file result s)
      | Some img =>
          match scaleAndCompress fuel img (after_load file result s) with
          | Some (q, s') =>
              Some (settle (after_type_test file)
                      (then_ q (fun generatedURL => smaller generatedURL result)),
                    s')
          | None => None
          end
      end
  end.
Proof.
  unfold processFile, processFile_call, reader_load, image_load,
    after_type_test, after_load. run.
  destruct (readAsDataURL file) as [result|]; run.
  - destruct (decode result) as [img|]; run.
    + destruct (scaleAndCompress _ _ _) as [[q s']|];
        destruct (match_image (type file)); reflexivity.
    + destruct (match_image (type file)); reflexivity.
  - destruct (match_image (type file)); reflexivity.
Qed.

(** When every stage succeeds on an image file, the promise is fulfilled
    with the smaller URL. *)
Lemma processFile_resolves fuel file s result img generatedURL s' :
  match_image (type file) = true ->
  readAsDataURL file = Some result ->
  decode result = Some img ->
  scaleAndCompress fuel img (after_load file result s) =
    Some (Fulfilled generatedURL, s') ->
  processFile fuel file s = Some (Fulfilled (smaller generatedURL result), s').
Proof.
  intros Ht Hr Hd Hs. rewrite processFile_stages, Hr, Hd, Hs.
  unfold after_type_test. now rewrite Ht.
Qed.

(** A file whose type does not match is rejected, and read all the same. *)
Lemma processFile_wrong_type fuel file s p s' :
  match_image (type file) = false ->
  processFile fuel file s = Some (p, s') ->
  p = Rejected "The file is not an image." /\
  In (ReadAsDataURL file) (calls s') /\
  (forall result, readAsDataURL file = Some result -> In (SetSrc result) (calls s')).
Proof.
  intros Ht H. rewrite processFile_stages in H. unfold after_type_test in H.
  rewrite Ht in H. cbn [negb] in H.
  destruct (readAsDataURL file) as [result|].
  - destruct (decode result) as [img|].
    + destruct (scaleAndCompress _ _ _) as [[q s1]|] eqn:E; [|discriminate].
      inversion H; subst. split; [reflexivity|].
      destruct (steady_scaleAndCompress _ _ _ _ _ E) as [_ [l Hl]].
      rewrite Hl. unfold after_load; cbn [calls].
      split; [|intros r Hr; inversion Hr; subst];
        rewrite !in_app_iff; simpl; tauto.
    + inversion H; subst. unfold after_load; cbn [calls].
      split; [reflexivity|].
      split; [|intros r Hr; inversion Hr; subst];
        rewrite !in_app_iff; simpl; tauto.
  - inversion H; subst. cbn [calls]. split; [reflexivity|].
    split; [rewrite !in_app_iff; simpl; tauto|discriminate].
Qed.

End Pipeline.


Section Finished.

Context {host : Host}.

Lemma steady_invoke_all fuel cs : steady (invoke_all fuel cs).
Proof.
  induction cs as [|c cs IH]; simpl; [auto with frame|].
  apply steady_bind; [destruct c; simpl|intros p; auto with frame].
  - apply steady_scaleAndCompress.
  - apply steady_processFile.
Qed.

End Finished.

(** C1.  [processFile] fulfils its promise with [v] exactly when the file
    has an image type, is read as [result] and decoded, [scaleAndCompress]
    fulfils its promise with [generatedURL], and [v] is [generatedURL] if
    that is strictly shorter than [result] and [result] otherwise: [v] is
    one of the two candidates and its length is
    [min(len(generatedURL), len(result))]. *)
Theorem processFile_returns_the_shorter_candidate
    (host : Host) (fuel : nat) (file : File) (s : World)
    (v : string) (s' : World) :
  processFile fuel file s = Some (Fulfilled v, s') <->
  exists result img generatedURL,
    match_image (type file) = true /\
    readAsDataURL file = Some result /\
    decode result = Some img /\
    scaleAndCompress fuel img (after_load file result s) =
      Some (Fulfilled generatedURL, s') /\
    v = smaller generatedURL result /\
    (v = generatedURL \/ v = result) /\
    String.length v =
      Nat.min (String.length generatedURL) (String.length result).
Proof.
  split.
  - intros H. rewrite processFile_stages in H. unfold after_type_test in H.
    destruct (readAsDataURL file) as [result|] eqn:Hr;
      [|destruct (match_image (type file)); discriminate].
    destruct (decode result) as [img|] eqn:Hd;
      [|destruct (match_image (type file)); discriminate].
    destruct (scaleAndCompress _ _ _) as [[q s1]|] eqn:E; [|discriminate].
    destruct (match_image (type file)); [|discriminate].
    destruct q as [|g|e]; try discriminate.
    cbn [negb settle then_] in H. inversion H; subst.
    exists result, img, g. repeat split; try reflexivity; try assumption.
    + destruct (smaller_cases g result) as [[-> _]|[-> _]]; auto.
    + destruct (smaller_cases g result) as [[-> Hl]|[-> Hl]]; lia.
  - intros (result & img & g & Ht & Hr & Hd & Hs & -> & _).
    eapply processFile_resolves; eassumption.
Qed.

(** A small image file whose data URL is longer than the generated one. *)
Lemma processFile_returns_the_shorter_candidate_witness :
  exists v s' result img generatedURL,
    match_image (type small_file) = true /\
    @readAsDataURL toy_host small_file = Some result /\
    @decode toy_host result = Some img /\
    @scaleAndCompress toy_host 0 img (after_load small_file result (fresh r500)) =
      Some (Fulfilled generatedURL, s') /\
    v = smaller generatedURL result /\
    (v = generatedURL \/ v = result) /\
    String.length v =
      Nat.min (String.length generatedURL) (String.length result).
Proof.
  eexists; eexists.
  apply (proj1 (processFile_returns_the_shorter_candidate toy_host 0 small_file
                  (fresh r500) _ _)).
  exact (@processFile_resolves toy_host 0 small_file (fresh r500)
           "data:image/png;base64,small" small "data:image/jpeg;base64,j" _
           eq_refl eq_refl eq_refl
           (@scaleAndCompress_unscaled toy_host 0 small
              (after_load small_file "data:image/png;base64,small" (fresh r500))
              eq_refl)).
Defined.

(** C10.  When the generated URL is exactly as long as the original data
    URL, [processFile] returns the original: the generated URL is only
    returned when it is strictly shorter. *)
Theorem processFile_tie_returns_original
    (host : Host) (fuel : nat) (file : File) (s : World)
    (result : string) (img : Image) (generatedURL : string) (s' : World) :
  match_image (type file) = true ->
  readAsDataURL file = Some result ->
  decode result = Some img ->
  scaleAndCompress fuel img (after_load file result s) =
    Some (Fulfilled generatedURL, s') ->
  String.length generatedURL = String.length result ->
  smaller generatedURL result = result /\
  processFile fuel file s = Some (Fulfilled result, s').
Proof.
  intros Ht Hr Hd Hs Hl.
  assert (E : smaller generatedURL result = result).
  { unfold smaller. rewrite Hl, Z.ltb_irrefl. reflexivity. }
  split; [exact E|].
  rewrite (processFile_resolves fuel file s result img generatedURL s' Ht Hr Hd Hs).
  now rewrite E.
Qed.

(** A file whose data URL has the 24 characters of the generated one. *)
Lemma processFile_tie_returns_original_witness :
  exists s',
    smaller "data:image/jpeg;base64,j" "data:image/png;base64,eq" =
      "data:image/png;base64,eq"%string /\
    @processFile toy_host 0 tie_file (fresh r500) =
      Some (Fulfilled "data:image/png;base64,eq", s').
Proof.
  eexists.
  apply (processFile_tie_returns_original toy_host 0 tie_file (fresh r500)
           "data:image/png;base64,eq" small "data:image/jpeg;base64,j" _
           eq_refl eq_refl eq_refl
           (@scaleAndCompress_unscaled toy_host 0 small
              (after_load tie_file "data:image/png;base64,eq" (fresh r500))
              eq_refl)
           eq_refl).
Defined.

(** C6.  A file of type [text/plain] whose content the browser reads and
    decodes: the promise is rejected with ['The file is not an image.'],
    and the run goes on all the same: the file is read, its content is
    handed to the image decoder, the image is drawn and encoded. *)
Theorem processFile_text_file_rejected_but_processed :
  match_image (type text_file) = false /\
  exists s',
    @processFile toy_host 1 text_file (fresh r100) =
      Some (Rejected "The file is not an image.", s') /\
    In (ReadAsDataURL text_file) (calls s') /\
    In (SetSrc (body text_file)) (calls s') /\
    (exists c, In (DrawImage c (FromImage small)
                     [of_Z 0; of_Z 0; of_Z 200; of_Z 134]) (calls s')) /\
    (exists c, In (ToDataURL c "image/jpeg" (quality r100)) (calls s')).
Proof.
  split; [reflexivity|]. eexists. split; [reflexivity|].
  cbn. repeat split; eauto 12.
Qed.

(** C8.  The constructor stores [maxSize] and [compression]; after any
    sequence of calls of [scaleAndCompress] and [processFile] the object
    still holds the two values it was constructed with, and every
    finished call of [scaleAndCompress] used them: unless it was rejected
    with [InvalidStateError], it decided and sized with [this.maxSize] and
    encoded at [this.compression / 100]. *)
Theorem configuration_is_never_modified
    (host : Host) (m c : Z) (fuel : nat) (cs : list Call)
    (s : World) (ps : list Promise) (s' : World) :
  this s = constructor m c ->
  invoke_all fuel cs s = Some (ps, s') ->
  maxSize (constructor m c) = m /\ compression (constructor m c) = c /\
  this s' = constructor m c /\
  maxSize (this s') = m /\ compression (this s') = c /\
  (forall img p s1, scaleAndCompress fuel img s' = Some (p, s1) ->
     this s1 = constructor m c /\
     (p = Rejected "InvalidStateError" \/
      exists final,
        p = Fulfilled (toDataURL final "image/jpeg" (div (of_Z c) (of_Z 100))) /\
        encoded s1 = Some final /\
        (c_width final, c_height final) =
          (if (width img >? m) || (height img >? m)
           then newDimensions (constructor m c) img
           else (of_Z (width img), of_Z (height img))))) /\
  (forall file p s1, processFile fuel file s' = Some (p, s1) ->
     this s1 = constructor m c).
Proof.
  intros Hs Hrun.
  pose proof (proj1 (steady_invoke_all fuel cs s ps s' Hrun)) as Ht.
  rewrite Hs in Ht.
  do 5 (split; [first [reflexivity | rewrite Ht; reflexivity]|]).
  split.
  - intros img p s1 H.
    destruct (scaleAndCompress_finished _ _ _ _ _ H)
      as (E & [Hp|(f & Hp & He & _ & Hd)]).
    + split; [congruence|now left].
    + split; [congruence|]. right.
      rewrite Ht in Hp, Hd. exists f. auto.
  - intros file p s1 H.
    rewrite (proj1 (steady_processFile _ _ _ _ _ H)). exact Ht.
Qed.

(** Two calls on a fresh object constructed with 500 and 75. *)
Lemma configuration_is_never_modified_witness :
  exists ps s',
    @invoke_all toy_host 0
      [CallProcessFile small_file; CallScaleAndCompress small]
      (fresh (constructor 500 75)) = Some (ps, s') /\
    this s' = constructor 500 75.
Proof.
  destruct (@invoke_all toy_host 0
              [CallProcessFile small_file; CallScaleAndCompress small]
              (fresh (constructor 500 75))) as [[ps s']|] eqn:E.
  - exists ps, s'. split; [reflexivity|].
    apply (configuration_is_never_modified toy_host 500 75 0
             [CallProcessFile small_file; CallScaleAndCompress small]
             (fresh (constructor 500 75)) ps s' eq_refl E).
  - vm_compute in E. discriminate E.
Defined.

(** ** Further properties: how a run ends *)

(** X1.  For an image with positive sides under a positive [maxSize],
    with products in the exact range: [scaleAndCompress] never ends
    exactly when [img.height > 2 * img.width * maxSize] (the new width
    rounds to 0); it is rejected with [InvalidStateError], at the first
    round of the loop, when [img.width > 2 * img.height * maxSize] (the
    new height rounds to 0); in every other case it ends, with enough
    fuel, and fulfils its promise. *)
Theorem scaleAndCompress_hangs_rejects_or_fulfils
    (host : Host) (r : Resizer) (img : Image) :
  0 < maxSize r -> 0 < width img -> 0 < height img ->
  exact_products r img ->
  ((forall fuel s, this s = r -> scaleAndCompress fuel img s = None) <->
   2 * width img * maxSize r < height img) /\
  (2 * height img * maxSize r < width img ->
   forall fuel s, this s = r ->
     exists s', scaleAndCompress (S fuel) img s =
                  Some (Rejected "InvalidStateError", s')) /\
  (height img <= 2 * width img * maxSize r ->
   width img <= 2 * height img * maxSize r ->
   exists fuel, forall s, this s = r ->
     exists url s', scaleAndCompress fuel img s = Some (Fulfilled url, s')).
Proof.
  intros Hm Hw Hh _. split; [split|split].
  - intros Hnone.
    destruct (Z_lt_le_dec (2 * width img * maxSize r) (height img)) as [|Hok];
      [assumption|exfalso].
    destruct (scaleAndCompress_ends r img Hm Hw Hh Hok) as (fuel & Hrun).
    destruct (Hrun (fresh r) eq_refl) as (p & s' & E).
    rewrite (Hnone fuel (fresh r) eq_refl) in E. discriminate E.
  - intros Hbad fuel s Hs. subst r. now apply scaleAndCompress_never_ends.
  - intros Hflat fuel s Hs. subst r.
    destruct (scaleAndCompress_rejected fuel img s Hm Hw Hh Hflat)
      as (c1 & a1 & c2 & a2 & _ & E).
    eauto.
  - now apply scaleAndCompress_ends_fulfilled.
Qed.

(** A 1 by 1000 image under [maxSize = 100]: 1000 > 200. *)
Lemma scaleAndCompress_hangs_rejects_or_fulfils_witness :
  (forall fuel s, this s = r100 -> @scaleAndCompress toy_host fuel thin s = None) <->
  2 * width thin * maxSize r100 < height thin.
Proof.
  apply (scaleAndCompress_hangs_rejects_or_fulfils toy_host r100 thin);
    unfold exact_products; simpl; lia.
Defined.

(** X2.  Every run of [scaleAndCompress] that fulfils its promise, on an
    image with positive sides under a positive [maxSize] and with products
    in the exact range, encodes a canvas whose sides are positive
    integers, at most [maxSize] and at most the sides of the image. *)
Theorem fulfilled_output_fits_maxSize_and_image
    (host : Host) (fuel : nat) (img : Image) (s : World)
    (v : string) (s' : World) :
  0 < maxSize (this s) -> 0 < width img -> 0 < height img ->
  exact_products (this s) img ->
  scaleAndCompress fuel img s = Some (Fulfilled v, s') ->
  exists final tw th,
    encoded s' = Some final /\
    v = toDataURL final "image/jpeg" (quality (this s)) /\
    c_width final = of_Z tw /\ c_height final = of_Z th /\
    0 < tw <= maxSize (this s) /\ 0 < th <= maxSize (this s) /\
    tw <= width img /\ th <= height img.
Proof.
  intros Hm Hw Hh _ Hrun.
  destruct (scaleAndCompress_finished _ _ _ _ _ Hrun)
    as (_ & [Hp|(final & Hp & He & _ & Hd)]); [discriminate Hp|].
  inversion Hp; subst v.
  destruct (exceeds (this s) img) eqn:Hx.
  - apply exceeds_true_iff in Hx.
    assert (Hok : height img <= 2 * width img * maxSize (this s)).
    { destruct (Z_lt_le_dec (2 * width img * maxSize (this s)) (height img))
        as [Hbad|]; [|assumption].
      rewrite (scaleAndCompress_never_ends fuel img s Hm Hw Hh Hbad) in Hrun.
      discriminate Hrun. }
    assert (Hok2 : width img <= 2 * height img * maxSize (this s)).
    { destruct (Z_lt_le_dec (2 * height img * maxSize (this s)) (width img))
        as [Hflat|]; [|assumption].
      destruct fuel as [|fuel].
      - rewrite (scaleAndCompress_rejected_needs_fuel img s Hm Hw Hh Hflat) in Hrun.
        discriminate Hrun.
      - destruct (scaleAndCompress_rejected fuel img s Hm Hw Hh Hflat)
          as (c1 & a1 & c2 & a2 & _ & E).
        rewrite E in Hrun. discriminate Hrun. }
    destruct (Z_lt_le_dec (height img) (width img)) as [Hlt|Hle].
    + rewrite newDimensions_wide in Hd by lia. inversion Hd.
      exists final, (maxSize (this s)),
        ((2 * (height img * maxSize (this s)) + width img) / (2 * width img)).
      pose proof (round_div_clamped (height img) (width img) (maxSize (this s))
                    ltac:(lia) ltac:(lia) ltac:(lia)).
      assert (0 < (2 * (height img * maxSize (this s)) + width img) / (2 * width img))
        by (apply Z.div_str_pos; nia).
      assert ((2 * (height img * maxSize (this s)) + width img) / (2 * width img)
              <= height img)
        by (apply Z.lt_succ_r, Z.div_lt_upper_bound; nia).
      repeat split; auto; lia.
    + rewrite newDimensions_tall in Hd by lia. inversion Hd.
      exists final,
        ((2 * (width img * maxSize (this s)) + height img) / (2 * height img)),
        (maxSize (this s)).
      pose proof (round_div_clamped (width img) (height img) (maxSize (this s))
                    ltac:(lia) ltac:(lia) ltac:(lia)).
      assert (0 < (2 * (width img * maxSize (this s)) + height img) / (2 * height img))
        by (apply Z.div_str_pos; nia).
      assert ((2 * (width img * maxSize (this s)) + height img) / (2 * height img)
              <= width img)
        by (apply Z.lt_succ_r, Z.div_lt_upper_bound; nia).
      repeat split; auto; lia.
  - apply exceeds_false_iff in Hx. inversion Hd.
    exists final, (width img), (height img). repeat split; auto; lia.
Qed.

(** The small image under [maxSize = 500]. *)
Lemma fulfilled_output_fits_maxSize_and_image_witness :
  exists final tw th,
    encoded
      {| this := r500;
         calls := (([] ++ [CreateCanvas]) ++
                   [DrawImage (mkCanvas (of_Z 300) (of_Z 200) []) (FromImage small)
                      [of_Z 0; of_Z 0; of_Z 300; of_Z 200]]) ++
                  [ToDataURL
                     (mkCanvas (of_Z 300) (of_Z 200)
                        [drawn (FromImage small)
                           [of_Z 0; of_Z 0; of_Z 300; of_Z 200]])
                     "image/jpeg" (quality r500)] |} = Some final /\
    @toDataURL toy_host
      (mkCanvas (of_Z 300) (of_Z 200)
         [drawn (FromImage small) [of_Z 0; of_Z 0; of_Z 300; of_Z 200]])
      "image/jpeg" (quality r500) =
    @toDataURL toy_host final "image/jpeg" (quality r500) /\
    c_width final = of_Z tw /\ c_height final = of_Z th /\
    0 < tw <= 500 /\ 0 < th <= 500 /\ tw <= 300 /\ th <= 200.
Proof.
  apply (fulfilled_output_fits_maxSize_and_image toy_host 0 small (fresh r500) _ _
           ltac:(simpl; lia) ltac:(simpl; lia) ltac:(simpl; lia)
           ltac:(unfold exact_products; simpl; lia)
           (@scaleAndCompress_unscaled toy_host 0 small (fresh r500) eq_refl)).
Defined.

(** ** Further properties: the working canvas *)

(** X3.  On an image with positive sides that needs scaling and whose new
    dimensions [c] by [d] are both not 0, let
    [n = floor(log2(img.width / c))].  With fuel for [n] rounds the run
    ends; the working canvas is sized [c * 2^n] by [d * 2^n], receives the
    image once, scaled to all of it, and then exactly [n] draws of itself,
    every one into the same rectangle of half its sides; the final canvas
    is sized [c] by [d] and receives one draw, the top left [c] by [d]
    rectangle of the working canvas, unscaled. *)
Theorem scaling_branch_draws
    (host : Host) (fuel : nat) (img : Image) (s : World) (c d : Z) :
  0 < maxSize (this s) -> 0 < width img -> 0 < height img ->
  maxSize (this s) < width img \/ maxSize (this s) < height img ->
  newDimensions (this s) img = (of_Z c, of_Z d) -> c <> 0 -> d <> 0 ->
  Z.log2 (width img / c) <= Z.of_nat fuel ->
  let n := Z.log2 (width img / c) in
  let final := final_canvas (of_Z c) (of_Z d)
                 (working_canvas img (of_Z (c * 2 ^ n)) (of_Z (d * 2 ^ n))
                    (Z.to_nat n)) in
  exists s',
    scaleAndCompress fuel img s =
      Some (Fulfilled (toDataURL final "image/jpeg" (quality (this s))), s') /\
    encoded s' = Some final.
Proof. exact (@scaleAndCompress_scaled_draws host fuel img s c d). Qed.

(** The wide image under [maxSize = 500]: a 2000 by 1000 working canvas,
    two rounds. *)
Lemma scaling_branch_draws_witness :
  exists s',
    encoded s' =
    Some (final_canvas (of_Z 500) (of_Z 250)
            (working_canvas wide (of_Z (500 * 2 ^ Z.log2 (2000 / 500)))
               (of_Z (250 * 2 ^ Z.log2 (2000 / 500)))
               (Z.to_nat (Z.log2 (2000 / 500))))).
Proof.
  destruct (scaling_branch_draws toy_host 2 wide (fresh r500) 500 250
              ltac:(simpl; lia) ltac:(simpl; lia) ltac:(simpl; lia)
              ltac:(simpl; lia) eq_refl ltac:(lia) ltac:(lia)
              ltac:(simpl; lia))
    as (s' & _ & Henc).
  exists s'. exact Henc.
Defined.

(** X4.  On an image with positive sides that needs scaling and whose new
    width [c] is not 0, the halving count is a finite [n >= 0]: the
    largest [n] with [c * 2^n <= img.width].  So the working canvas is at
    most as wide as the image and more than half as wide, and there is no
    round at all exactly when [img.width < 2 * c]. *)
Theorem halvings_largest_power_that_fits (r : Resizer) (img : Image) (c : Z) :
  0 < maxSize r -> 0 < width img -> 0 < height img ->
  maxSize r < width img \/ maxSize r < height img ->
  fst (newDimensions r img) = of_Z c -> c <> 0 ->
  exists n,
    halvings img (of_Z c) = IFin n /\ 0 <= n /\
    mul (of_Z c) (Math_pow2 (IFin n)) = of_Z (c * 2 ^ n) /\
    c * 2 ^ n <= width img < 2 * (c * 2 ^ n) /\
    (forall n', 0 <= n' -> c * 2 ^ n' <= width img -> n' <= n) /\
    (n = 0 <-> width img < 2 * c).
Proof.
  intros Hm Hw Hh Hex Hc Hc0.
  destruct (new_width_bounds r img Hm Hw Hh Hex) as (c' & Hc' & Hb).
  rewrite Hc in Hc'. apply of_Z_inj in Hc'. subst c'.
  destruct (halvings_spec r img c Hm Hw Hh Hex Hc Hc0) as (n & Hn & Hn0 & Hlo & Hhi).
  exists n. split; [assumption|]. split; [assumption|].
  split; [now apply working_side|].
  rewrite Z.pow_add_r, Z.pow_1_r in Hhi by lia.
  split; [lia|]. split.
  - intros n' Hn' Hfit. apply (halvings_largest (width img) c n n'); try lia.
    rewrite Z.pow_add_r, Z.pow_1_r by lia. lia.
  - split.
    + intros ->. rewrite Z.pow_0_r in Hhi. lia.
    + intros Hlt. destruct (Z.eq_dec n 0) as [|Hne]; [assumption|exfalso].
      assert (2 ^ 1 <= 2 ^ n) by (apply Z.pow_le_mono_r; lia).
      rewrite Z.pow_1_r in *. nia.
Qed.

(** A 600 by 500 image under [maxSize = 500]: no round. *)
Lemma halvings_largest_power_that_fits_witness :
  exists n,
    halvings {| width := 600; height := 500 |} (of_Z 500) = IFin n /\ 0 <= n /\
    mul (of_Z 500) (Math_pow2 (IFin n)) = of_Z (500 * 2 ^ n) /\
    500 * 2 ^ n <= 600 < 2 * (500 * 2 ^ n) /\
    (forall n', 0 <= n' -> 500 * 2 ^ n' <= 600 -> n' <= n) /\
    (n = 0 <-> 600 < 2 * 500).
Proof.
  apply (halvings_largest_power_that_fits r500 {| width := 600; height := 500 |} 500);
    try (simpl; lia); reflexivity.
Defined.

(** ** Further properties: where the picture is *)

Lemma halve_extent (x w : Z) :
  w <> 0 ->
  div (mul (of_Z (2 * x)) (div (of_Z w) (of_Z 2))) (of_Z w) = of_Z x.
Proof.
  intros Hw.
  assert (E1 : div (of_Z w) (of_Z 2) = fin (inject_Z w / inject_Z 2))
    by reflexivity.
  rewrite E1. unfold mul, of_Z at 1, fin at 2.
  unfold div, of_Z, is_zero; cbn [Qnum inject_Z].
  replace (w =? 0) with false by (symmetry; lia).
  apply fin_of_Z. unfold fin. rewrite !Qred_correct, inject_Z_mult.
  assert (~ inject_Z w == 0)%Q.
  { intros H. unfold Qeq in H; simpl in H. lia. }
  change (inject_Z 2) with 2%Q. field. assumption.
Qed.

Lemma draw_extent_halve (w h x y : Z) :
  w <> 0 -> h <> 0 ->
  draw_extent (of_Z w) (of_Z h) (Some (of_Z (2 * x), of_Z (2 * y)))
    (halve_draw (of_Z w) (of_Z h)) =
  Some (of_Z x, of_Z y).
Proof.
  intros Hw Hh. unfold halve_draw, draw_extent.
  change (at_origin (of_Z 0) (of_Z 0)) with true. cbv iota.
  now rewrite !halve_extent.
Qed.

Lemma picture_after_rounds (w h : Z) (k : nat) : forall x y : Z,
  w <> 0 -> h <> 0 ->
  fold_left (draw_extent (of_Z w) (of_Z h))
    (repeat (halve_draw (of_Z w) (of_Z h)) k)
    (Some (of_Z (x * 2 ^ Z.of_nat k), of_Z (y * 2 ^ Z.of_nat k))) =
  Some (of_Z x, of_Z y).
Proof.
  induction k as [|k IH]; intros x y Hw Hh.
  - simpl. now rewrite !Z.mul_1_r.
  - cbn [repeat fold_left]. rewrite Nat2Z.inj_succ, !Z.pow_succ_r by lia.
    replace (x * (2 * 2 ^ Z.of_nat k)) with (2 * (x * 2 ^ Z.of_nat k)) by lia.
    replace (y * (2 * 2 ^ Z.of_nat k)) with (2 * (y * 2 ^ Z.of_nat k)) by lia.
    rewrite draw_extent_halve by assumption. now apply IH.
Qed.

(** X5.  On an image with positive sides that needs scaling and whose new
    dimensions [c] by [d] are both not 0, the picture ends up in the top
    left [c] by [d] rectangle of the working canvas: each round halves
    the rectangle it covers, from [c * 2^n] by [d * 2^n] down to [c] by
    [d], and that rectangle is the one copied onto the final canvas. *)
Theorem picture_is_the_copied_rectangle
    (host : Host) (fuel : nat) (img : Image) (s : World) (c d : Z) :
  0 < maxSize (this s) -> 0 < width img -> 0 < height img ->
  maxSize (this s) < width img \/ maxSize (this s) < height img ->
  newDimensions (this s) img = (of_Z c, of_Z d) -> c <> 0 -> d <> 0 ->
  Z.log2 (width img / c) <= Z.of_nat fuel ->
  exists working url s',
    scaleAndCompress fuel img s = Some (Fulfilled url, s') /\
    encoded s' = Some (final_canvas (of_Z c) (of_Z d) working) /\
    picture working = Some (of_Z c, of_Z d).
Proof.
  intros Hm Hw Hh Hex Hd Hc Hd0 Hfuel.
  destruct (@scaleAndCompress_scaled_draws host fuel img s c d
              Hm Hw Hh Hex Hd Hc Hd0 Hfuel) as (s' & Hrun & Henc).
  pose proof (Z.log2_nonneg (width img / c)) as Hn.
  set (n := Z.log2 (width img / c)) in *.
  eexists; eexists; exists s'. split; [exact Hrun|]. split; [exact Henc|].
  unfold picture, working_canvas. cbn [c_width c_height painted fold_left].
  unfold draw_extent at 2. change (at_origin (of_Z 0) (of_Z 0)) with true.
  cbv iota.
  assert (Hp : 0 < 2 ^ n) by (apply Z.pow_pos_nonneg; lia).
  pose proof (picture_after_rounds (c * 2 ^ n) (d * 2 ^ n) (Z.to_nat n) c d
                ltac:(nia) ltac:(nia)) as P.
  rewrite Z2Nat.id in P by assumption. exact P.
Qed.

(** The wide image under [maxSize = 500]. *)
Lemma picture_is_the_copied_rectangle_witness :
  exists working url s',
    @scaleAndCompress toy_host 2 wide (fresh r500) = Some (Fulfilled url, s') /\
    encoded s' = Some (final_canvas (of_Z 500) (of_Z 250) working) /\
    picture working = Some (of_Z 500, of_Z 250).
Proof.
  apply (picture_is_the_copied_rectangle toy_host 2 wide (fresh r500) 500 250
           ltac:(simpl; lia) ltac:(simpl; lia) ltac:(simpl; lia)
           ltac:(simpl; lia) eq_refl ltac:(lia) ltac:(lia) ltac:(simpl; lia)).
Defined.

(** ** Further properties: [processFile] and the configuration *)

Lemma prefix_iff (p : string) : forall s,
  String.prefix p s = true <-> exists b, s = String.append p b.
Proof.
  induction p as [|a p IH]; intros s.
  - split; [intros _; now exists s|intros _; destruct s; reflexivity].
  - destruct s as [|c s]; simpl.
    + split; [discriminate|intros [b Hb]; discriminate].
    + destruct (Ascii.ascii_dec a c) as [->|Hne].
      * rewrite IH. split; intros [b Hb]; exists b; congruence.
      * split; [discriminate|intros [b Hb]; congruence].
Qed.

Lemma occurs_iff (p : string) : forall s,
  occurs p s = true <->
  exists a b, s = String.append a (String.append p b).
Proof.
  induction s as [|c s IH]; cbn [occurs]; rewrite orb_true_iff, prefix_iff.
  - split.
    + intros [[b Hb]|H]; [|discriminate]. now exists EmptyString, b.
    + intros (a & b & H). destruct a as [|c a]; [|discriminate].
      left. now exists b.
  - rewrite IH. split.
    + intros [[b Hb]|(a & b & H)].
      * now exists EmptyString, b.
      * exists (String c a), b. simpl. now rewrite H.
    + intros (a & b & H). destruct a as [|c' a]; simpl in H.
      * left. now exists b.
      * right. exists a, b. congruence.
Qed.

(** X6.  The type test of [processFile] accepts exactly the types that
    contain ["image"] somewhere: the pattern is not anchored, so the text
    may stand after any prefix and before any suffix. *)
Theorem match_image_iff_contains_image (t : string) :
  match_image t = true <->
  exists a b, t = String.append a (String.append "image" b).
Proof. apply occurs_iff. Qed.

Section Settling.

Context {host : Host}.

Lemma processFile_outcome fuel file s p s' :
  processFile fuel file s = Some (p, s') ->
  (match_image (type file) = false /\ p = Rejected "The file is not an image.") \/
  (match_image (type file) = true /\
   ((p = Pending /\
     (readAsDataURL file = None \/
      exists result, readAsDataURL file = Some result /\ decode result = None)) \/
    (exists v, p = Fulfilled v) \/
    p = Rejected "InvalidStateError")).
Proof.
  intros H. rewrite processFile_stages in H. unfold after_type_test in H.
  destruct (match_image (type file)); cbn [negb] in H; [right|left];
    (split; [reflexivity|]).
  - destruct (readAsDataURL file) as [result|].
    + destruct (decode result) as [img|] eqn:Hd.
      * destruct (scaleAndCompress _ _ _) as [[q s1]|] eqn:E; [|discriminate].
        destruct (scaleAndCompress_finished _ _ _ _ _ E)
          as (_ & [->|(f & -> & _)]); inversion H; subst.
        -- right. now right.
        -- right. left. eauto.
      * inversion H; subst. left. split; [reflexivity|]. right. eauto.
    + inversion H; subst. left. auto.
  - destruct (readAsDataURL file) as [result|].
    + destruct (decode result) as [img|].
      * destruct (scaleAndCompress _ _ _) as [[q s1]|]; [|discriminate].
        now inversion H.
      * now inversion H.
    + now inversion H.
Qed.

End Settling.

(** X7.  The call [processFile(file)] itself always returns, after it has
    started the reader, and the promise it returns is already rejected
    with ['The file is not an image.'] exactly when the type of the file
    does not contain ["image"], and pending otherwise.  What the listeners
    do later does not change that: a run of the whole pipeline that ends
    has its promise rejected with that reason exactly for such a type.
    For an image type it ends pending (a load event never fired),
    fulfilled, or rejected with [InvalidStateError] by
    [scaleAndCompress]. *)
Theorem processFile_call_rejects_exactly_wrong_type
    (host : Host) (file : File) (s : World) :
  (exists p,
     processFile_call file s =
       Some (p, {| this := this s;
                   calls := (calls s ++ [NewFileReader]) ++ [ReadAsDataURL file] |}) /\
     (p = Rejected "The file is not an image." <-> match_image (type file) = false) /\
     (p = Pending <-> match_image (type file) = true)) /\
  (forall fuel q s',
     processFile fuel file s = Some (q, s') ->
     (q = Rejected "The file is not an image." <-> match_image (type file) = false) /\
     (match_image (type file) = true ->
      q = Pending \/ (exists v, q = Fulfilled v) \/ q = Rejected "InvalidStateError")).
Proof.
  split.
  - unfold processFile_call. run.
    destruct (match_image (type file)); cbn [negb settle]; eexists;
      (split; [reflexivity|]); split; split; intros H;
      try reflexivity; discriminate H.
  - intros fuel q s' H.
    destruct (processFile_outcome _ _ _ _ _ H)
      as [[Ht ->]|[Ht [[-> _]|[[v ->]| ->]]]]; rewrite Ht; split;
      try (split; intros E; first [reflexivity | discriminate E]);
      intros E; first [discriminate E | auto]; eauto.
Qed.

(** X8.  [processFile] ends with its promise still pending exactly when
    the file has an image type and either the reader never loads it or
    its content never loads as an image: [processFile] listens to no
    error event, so such a file is neither fulfilled nor rejected. *)
Theorem processFile_pending_iff_load_never_fires
    (host : Host) (fuel : nat) (file : File) (s : World) :
  (exists s', processFile fuel file s = Some (Pending, s')) <->
  match_image (type file) = true /\
  (readAsDataURL file = None \/
   exists result, readAsDataURL file = Some result /\ decode result = None).
Proof.
  split.
  - intros [s' H].
    destruct (processFile_outcome _ _ _ _ _ H)
      as [[_ Hp]|[Ht [[_ Hc]|[[v Hp]|Hp]]]];
      [discriminate|auto|discriminate|discriminate].
  - intros [Ht Hc]. rewrite processFile_stages. unfold after_type_test.
    rewrite Ht. cbn [negb].
    destruct Hc as [->|(result & -> & ->)]; eauto.
Qed.

(** X9.  Every run of [scaleAndCompress] that ends was rejected with
    [InvalidStateError] or made [toDataURL] its last call, asking for
    ['image/jpeg'] at the quality
    [this.compression / 100]: a number of [0, 1] when the compression is in
    [0, 100], above 1 when it is above 100 and below 0 when it is below 0 -
    the value is not clamped. *)
Theorem encoder_quality_is_compression_over_100
    (host : Host) (fuel : nat) (img : Image) (s : World)
    (p : Promise) (s' : World) :
  scaleAndCompress fuel img s = Some (p, s') ->
  p = Rejected "InvalidStateError" \/
  exists final q,
    List.last (calls s') CreateCanvas = ToDataURL final "image/jpeg" (Fin q) /\
    (q == inject_Z (compression (this s)) / inject_Z 100)%Q /\
    (0 <= compression (this s) <= 100 -> (0 <= q <= 1)%Q) /\
    (100 < compression (this s) -> (1 < q)%Q) /\
    (compression (this s) < 0 -> (q < 0)%Q).
Proof.
  intros H.
  destruct (scaleAndCompress_finished _ _ _ _ _ H)
    as (_ & [Hp|(final & _ & _ & Hl & _)]); [now left|right].
  exists final, (Qred (inject_Z (compression (this s)) / inject_Z 100)).
  split; [exact Hl|].
  assert (E : (Qred (inject_Z (compression (this s)) / inject_Z 100)
               == compression (this s) # 100)%Q)
    by (now rewrite Qred_correct, <- Qmake_Qdiv).
  split; [apply Qred_correct|].
  rewrite E. unfold Qle, Qlt; simpl. repeat split; lia.
Qed.

(** The small image at compression 75: quality 3/4. *)
Lemma encoder_quality_is_compression_over_100_witness :
  exists final q,
    List.last
      ((([] ++ [CreateCanvas]) ++
        [DrawImage (mkCanvas (of_Z 300) (of_Z 200) []) (FromImage small)
           [of_Z 0; of_Z 0; of_Z 300; of_Z 200]]) ++
       [ToDataURL
          (mkCanvas (of_Z 300) (of_Z 200)
             [drawn (FromImage small) [of_Z 0; of_Z 0; of_Z 300; of_Z 200]])
          "image/jpeg" (quality r500)]) CreateCanvas =
      ToDataURL final "image/jpeg" (Fin q) /\
    (q == inject_Z 75 / inject_Z 100)%Q.
Proof.
  destruct (encoder_quality_is_compression_over_100 toy_host 0 small (fresh r500) _ _
              (@scaleAndCompress_unscaled toy_host 0 small (fresh r500) eq_refl))
    as [Hp|(final & q & Hl & Hq & _)]; [discriminate Hp|].
  exists final, q. split; [exact Hl|exact Hq].
Defined.

(** X10.  When the browser reads the file and decodes it to an image with
    positive sides, [processFile] under a positive [maxSize] never ends
    exactly when [img.height > 2 * img.width * maxSize]; the type of the
    file plays no part in it. *)
Theorem processFile_hangs_iff_image_too_thin
    (host : Host) (file : File) (s : World) (result : string) (img : Image) :
  readAsDataURL file = Some result -> decode result = Some img ->
  0 < maxSize (this s) -> 0 < width img -> 0 < height img ->
  ((forall fuel, processFile fuel file s = None) <->
   2 * width img * maxSize (this s) < height img).
Proof.
  intros Hr Hd Hm Hw Hh. split.
  - intros Hnone.
    destruct (Z_lt_le_dec (2 * width img * maxSize (this s)) (height img))
      as [|Hok]; [assumption|exfalso].
    destruct (scaleAndCompress_ends (this s) img Hm Hw Hh Hok) as (fuel & Hrun).
    destruct (Hrun (after_load file result s) eq_refl) as (q & s' & E).
    specialize (Hnone fuel). rewrite processFile_stages, Hr, Hd, E in Hnone.
    discriminate Hnone.
  - intros Hbad fuel. rewrite processFile_stages, Hr, Hd.
    now rewrite (scaleAndCompress_never_ends fuel img (after_load file result s)).
Qed.

(** A file that decodes to the 1 by 1000 image, under [maxSize = 100]. *)
Lemma processFile_hangs_iff_image_too_thin_witness :
  (forall fuel,
     @processFile toy_host fuel
       {| type := "image/png"; body := "data:image/png;base64,thin" |}
       (fresh r100) = None) <->
  2 * 1 * 100 < 1000.
Proof.
  apply (processFile_hangs_iff_image_too_thin toy_host
           {| type := "image/png"; body := "data:image/png;base64,thin" |}
           (fresh r100) "data:image/png;base64,thin" thin
           eq_refl eq_refl);
    simpl; lia.
Defined.

(** X11.  The constructor checks nothing, and with [maxSize = 0] no image
    with positive sides is ever processed: it needs scaling, its new
    width is 0, and the run never ends. *)
Theorem zero_maxSize_never_ends
    (host : Host) (fuel : nat) (img : Image) (s : World) :
  maxSize (this s) = 0 -> 0 < width img -> 0 < height img ->
  scaleAndCompress fuel img s = None.
Proof.
  intros Hm Hw Hh.
  destruct (newDimensions (this s) img) as [cW cH] eqn:Hd.
  assert (Hc : cW = of_Z 0).
  { change cW with (fst (cW, cH)). rewrite <- Hd.
    destruct (Z_lt_le_dec (height img) (width img)) as [Hlt|Hle].
    - rewrite newDimensions_wide by lia. cbn [fst]. now rewrite Hm.
    - rewrite newDimensions_tall by lia. cbn [fst]. rewrite Hm. f_equal.
      apply Z.div_small. lia. }
  subst cW.
  apply scaleAndCompress_hangs with (cWidth := of_Z 0) (cHeight := cH);
    [apply exceeds_true_iff; lia|assumption|now apply halvings_zero_width].
Qed.

(** The small image on an object constructed with 0 and 75. *)
Lemma zero_maxSize_never_ends_witness :
  @scaleAndCompress toy_host 5 small (fresh (constructor 0 75)) = None.
Proof.
  apply (zero_maxSize_never_ends toy_host 5 small (fresh (constructor 0 75)));
    simpl; [reflexivity|lia|lia].
Defined.
